(** * Trace-pattern evaluation engine of devmining_utilities ([utils.py])

    A shallow embedding of the constraint, sequence and attribute checkers
    of [utils.py], and the properties of the specification stated and
    settled against it.

    Conventions of the embedding:
    - a Python [str] is the list of its code points ([str]);
    - an event is a dictionary from attribute keys to values, and a trace
      is a list of events together with a dictionary of trace attributes;
      attribute values are strings, so that Python's [str(v)] is [v];
    - a Python exception is a [Raise] result, and a function that can raise
      returns a [result];
    - verdicts are the integers the code returns: 0 (unsatisfiable),
      1 (vacuously satisfied) and 2 (satisfied). *)

From Stdlib Require Import ZArith Lia Ascii String Sorting.
From stdpp Require Import base decidable option list sorting gmap.

Local Open Scope Z_scope.

(** ** Strings *)

Definition char : Type := N.
Definition str : Type := list char.

(** An ASCII literal as a Python string. *)
Definition pystr (s : string) : str :=
  N_of_ascii <$> list_ascii_of_string s.

(** The default value of the parameter [hack_delim], U+241F. *)
Definition hack_delim_default : str := [9247%N].

(** The default value of the parameter [name]. *)
Definition concept_name : str := pystr "concept:name".

(** [str(v)] for a value that is a string. *)
Definition py_str (v : str) : str := v.

(** [delim.join(l)] *)
Fixpoint join (delim : str) (l : list str) : str :=
  match l with
  | [] => []
  | [x] => x
  | x :: l' => x ++ delim ++ join delim l'
  end.

(** Left-to-right scan over the windows of width [m] of a sequence: a
    window accepted by [P] is counted and the scan resumes behind it, so
    counted windows never overlap. [skip] is the number of leading
    elements still covered by the last counted window. *)
Fixpoint scan_windows {A} (P : list A → bool) (m : nat) (skip : nat)
    (s : list A) : nat :=
  match s with
  | [] => 0%nat
  | _ :: s' =>
      match skip with
      | S k => scan_windows P m k s'
      | O => if P (take m s)
             then S (scan_windows P m (m - 1) s')
             else scan_windows P m 0 s'
      end
  end.

(** The test [w == sub] on a window. *)
Definition equal_to {A} `{EqDecision A} (sub w : list A) : bool :=
  bool_decide (w = sub).

(** [s.count(sub)]: the number of non-overlapping occurrences of [sub] in
    [s], found from left to right; the empty string occurs between any two
    characters and at both ends. *)
Definition str_count (s sub : str) : nat :=
  match sub with
  | [] => S (length s)
  | _ :: _ => scan_windows (equal_to sub) (length sub) 0 s
  end.

(** ** Exceptions *)

Inductive exn : Set := KeyError | IndexError.

Inductive result (A : Type) : Type :=
  | Ok (a : A)
  | Raise (e : exn).
Arguments Ok {A} a.
Arguments Raise {A} e.

#[global] Instance result_ret : MRet result := λ A a, Ok a.
#[global] Instance result_bind : MBind result := λ A B f r,
  match r with
  | Ok a => f a
  | Raise e => Raise e
  end.

(** [for x in l: st = body(st, x)] where the body can raise. *)
Fixpoint for_each {A S} (body : S → A → result S) (l : list A) (st : S)
    : result S :=
  match l with
  | [] => Ok st
  | x :: l' => st' ← body st x; for_each body l' st'
  end.

(** ** Data model *)

Abbreviation event := (gmap str str).

Record Trace : Type := mkTrace {
  attributes : gmap str str;
  events : list event
}.

(** [event[k]] *)
Definition getitem (e : event) (k : str) : result str :=
  match e !! k with
  | Some v => Ok v
  | None => Raise KeyError
  end.

(** [[event[name] for event in trace]] *)
Fixpoint names_of (name : str) (evs : list event) : result (list str) :=
  match evs with
  | [] => Ok []
  | e :: evs' =>
      n ← getitem e name;
      ns ← names_of name evs';
      Ok (n :: ns)
  end.

Definition event_names (name : str) (trace : Trace) : result (list str) :=
  names_of name (events trace).

(** An event that carries only its activity name, and a trace of such
    events; used to write concrete traces. *)
Definition named_event (n : str) : event := {[ concept_name := n ]}.
Definition trace_of (ns : list str) : Trace :=
  mkTrace ∅ (named_event <$> ns).

(** The trace followed by itself. *)
Definition trace_twice (trace : Trace) : Trace :=
  mkTrace (attributes trace) (events trace ++ events trace).

(** ** Reverse index *)

(** [rev_index[k].append(ind)] on a [defaultdict(list)] *)
Definition rev_append (rev_index : gmap str (list nat)) (k : str) (ind : nat)
    : gmap str (list nat) :=
  <[k := default [] (rev_index !! k) ++ [ind]]> rev_index.

(** The loop of [create_trace_reverse_index]; the state is the next
    position of [enumerate] and the index built so far. *)
Definition rev_index_body (name : str) (st : nat * gmap str (list nat))
    (e : event) : result (nat * gmap str (list nat)) :=
  k ← getitem e name;
  Ok (S st.1, rev_append st.2 k st.1).

Definition create_trace_reverse_index (trace : Trace) (name : str)
    : result (gmap str (list nat)) :=
  st ← for_each (rev_index_body name) (events trace) (0%nat, ∅);
  Ok st.2.

(** ** Declarative constraints *)

(** [rev_trace[a]] on a [defaultdict(list)] *)
Definition rev_getitem (rev_trace : gmap str (list nat)) (a : str) : list nat :=
  default [] (rev_trace !! a).

(** [l[-1]] and [l[0]] *)
Definition last_item (l : list nat) : result nat :=
  match last l with
  | Some x => Ok x
  | None => Raise IndexError
  end.

Definition first_item {A} (l : list A) : result A :=
  match l with
  | x :: _ => Ok x
  | [] => Raise IndexError
  end.

Definition check_response_constraint (rev_trace : gmap str (list nat))
    (a b : str) : result Z :=
  if decide (rev_trace !! a = None) then Ok 1
  else if decide (rev_trace !! b = None) then Ok 0
  else
    last_a_ind ← last_item (rev_getitem rev_trace a);
    last_b_ind ← last_item (rev_getitem rev_trace b);
    if decide (last_a_ind < last_b_ind)%nat then Ok 2 else Ok 0.

Definition check_precedence_constraint (rev_trace : gmap str (list nat))
    (a b : str) : result Z :=
  if decide (rev_trace !! b = None) then Ok 1
  else if decide (rev_trace !! a = None) then Ok 0
  else
    first_a_ind ← first_item (rev_getitem rev_trace a);
    first_b_ind ← first_item (rev_getitem rev_trace b);
    if decide (first_a_ind < first_b_ind)%nat then Ok 2 else Ok 0.

(** ** Sequence matchers *)

Definition check_sequence_strict_order (trace : Trace) (sequence : list str)
    (count : Z) (hack_delim : str) (name : str) : result Z :=
  if decide (Z.of_nat (length (events trace)) < count) then Ok 0
  else
    names ← event_names name trace;
    let search_string := join hack_delim names in
    let search_seq := join hack_delim sequence in
    let seq_count := str_count search_string search_seq in
    if decide (count ≤ Z.of_nat seq_count) then Ok 2 else Ok 0.

(** [l.remove(x)]: the list without the first occurrence of [x], [None]
    for the [ValueError] raised when [x] is not in [l]. *)
Fixpoint list_remove (x : str) (l : list str) : option (list str) :=
  match l with
  | [] => None
  | y :: l' => if decide (x = y) then Some l' else cons y <$> list_remove x l'
  end.

(** The loop bodies of the interleaved matchers; the state is
    [(count_subsequences, copy_seq)]. The [_step] functions are the part of
    the body behind the [continue] on names outside the pattern. *)
Definition nonstrict_interleaved_step (sequence : list str)
    (st : nat * list str) (name : str) : result (nat * list str) :=
  match list_remove name st.2 with
  | None => Ok st
  | Some copy_seq =>
      if decide (length copy_seq = 0%nat) then Ok (S st.1, sequence)
      else Ok (st.1, copy_seq)
  end.

Definition nonstrict_interleaved_body (sequence : list str)
    (sequence_activities : gset str) (st : nat * list str) (e : event)
    : result (nat * list str) :=
  name ← getitem e concept_name;
  if decide (name ∉ sequence_activities) then Ok st
  else nonstrict_interleaved_step sequence st name.

Definition check_sequence_nonstrict_order_interleaved (trace : Trace)
    (sequence : list str) (count : Z) : result Z :=
  let sequence_activities : gset str := list_to_set sequence in
  st ← for_each (nonstrict_interleaved_body sequence sequence_activities)
         (events trace) (0%nat, sequence);
  if decide (count ≤ Z.of_nat st.1) then Ok 2 else Ok 0.

Definition strict_interleaved_step (sequence : list str)
    (st : nat * list str) (name : str) : result (nat * list str) :=
  head ← first_item st.2;
  let copy_seq := if decide (name = head) then drop 1 st.2 else st.2 in
  if decide (length copy_seq = 0%nat) then Ok (S st.1, sequence)
  else Ok (st.1, copy_seq).

Definition strict_interleaved_body (sequence : list str)
    (sequence_activities : gset str) (st : nat * list str) (e : event)
    : result (nat * list str) :=
  name ← getitem e concept_name;
  if decide (name ∉ sequence_activities) then Ok st
  else strict_interleaved_step sequence st name.

Definition check_sequence_strict_order_interleaved (trace : Trace)
    (sequence : list str) (count : Z) : result Z :=
  let sequence_activities : gset str := list_to_set sequence in
  st ← for_each (strict_interleaved_body sequence sequence_activities)
         (events trace) (0%nat, sequence);
  if decide (count ≤ Z.of_nat st.1) then Ok 2 else Ok 0.

(** [itertools.permutations(l)]: every ordering of the positions of [l],
    in lexicographic order of the positions. [selections l] pairs each
    element with the others. *)
Fixpoint selections {A} (l : list A) : list (A * list A) :=
  match l with
  | [] => []
  | x :: l' => (x, l') :: ((λ s, (s.1, x :: s.2)) <$> selections l')
  end.

Fixpoint permutations_len {A} (n : nat) (l : list A) : list (list A) :=
  match n with
  | O => [[]]
  | S n' =>
      s ← selections l; cons s.1 <$> permutations_len n' s.2
  end.

Definition itertools_permutations {A} (l : list A) : list (list A) :=
  permutations_len (length l) l.

(** The inner loop of [check_sequence_nonstrict_order]: the start
    positions [i] in [range(len(search_list) - m)] whose slice
    [search_list[i : i + m]] is [perm_seq]. A negative bound gives the
    empty range, as the truncated subtraction does. *)
Definition window_matches (search_list : list str) (m : nat)
    (perm_seq : list str) : list nat :=
  filter (λ i, take m (drop i search_list) = perm_seq)
         (seq 0 (length search_list - m)).

(** The outer loop; the state is [(tested_permutations, found_indices)]. *)
Definition perm_body (search_list : list str) (m : nat)
    (st : gset (list str) * list nat) (perm_seq : list str)
    : gset (list str) * list nat :=
  if decide (perm_seq ∈ st.1) then st
  else ({[perm_seq]} ∪ st.1, st.2 ++ window_matches search_list m perm_seq).

Definition found_indices (search_list sequence : list str) : list nat :=
  (foldl (perm_body search_list (length sequence)) (∅, [])
         (itertools_permutations sequence)).2.

(** [sorted(list(set(l)))] *)
Definition sorted_set (l : list nat) : list nat :=
  merge_sort (≤)%nat (elements (list_to_set l : gset nat)).

(** The filter of overlapping windows; the state of its loop is
    [(next_min_index, filtered_indices)], and [found_indices[0]] raises on
    the empty list. *)
Definition filter_body (m : nat) (st : nat * list nat) (next_ind : nat)
    : nat * list nat :=
  if decide (st.1 ≤ next_ind)%nat then ((next_ind + m)%nat, st.2 ++ [next_ind])
  else st.

Definition filter_indices (m : nat) (found : list nat) : result (list nat) :=
  first ← first_item found;
  Ok (foldl (filter_body m) ((first + m)%nat, [first]) (drop 1 found)).2.

Definition check_sequence_nonstrict_order (trace : Trace)
    (sequence : list str) (count : Z) (hack_delim : str) (name : str)
    : result Z :=
  if decide (Z.of_nat (length (events trace)) < count) then Ok 0
  else
    search_list ← event_names name trace;
    let found := found_indices search_list sequence in
    if decide (Z.of_nat (length found) < count) then Ok 0
    else
      let found := sorted_set found in
      filtered_indices ← filter_indices (length sequence) found;
      if decide (count ≤ Z.of_nat (length filtered_indices)) then Ok 2
      else Ok 0.

(** ** Attribute matchers *)

(** The loop [for k, v in d.items()] of both attribute checks, which
    leaves with 0 at the first item that fails [test]: [None] is that early
    return, [Some n] the final [matched_count]. *)
Fixpoint count_matches (test : str → str → bool) (items : list (str * str))
    (matched_count : nat) : option nat :=
  match items with
  | [] => Some matched_count
  | (k, v) :: items' =>
      if test k v then count_matches test items' (S matched_count) else None
  end.

Definition check_trace_attribute (trace : Trace)
    (attribute_value_dict : gmap str str) : Z :=
  let trace_attributes := attributes trace in
  match count_matches
          (λ k v, bool_decide (trace_attributes !! k = Some (py_str v)))
          (map_to_list attribute_value_dict) 0 with
  | None => 0
  | Some matched_count =>
      if decide (matched_count = size attribute_value_dict) then 2 else 0
  end.

(** The first loop of [check_trace_event_attributes], for one event. *)
Definition collect_body (keys : list str) (event_attributes : gmap str str)
    (e : event) : gmap str str :=
  foldl (λ acc k,
           match e !! k with
           | Some v =>
               if decide (acc !! k = None) then <[k := py_str v]> acc else acc
           | None => acc
           end)
        event_attributes keys.

Definition collect_event_attributes (trace : Trace)
    (attribute_value_dict : gmap str str) : gmap str str :=
  foldl (collect_body (map_to_list attribute_value_dict).*1) ∅ (events trace).

Definition check_trace_event_attributes (trace : Trace)
    (attribute_value_dict : gmap str str) : Z :=
  let event_attributes := collect_event_attributes trace attribute_value_dict in
  match count_matches
          (λ k v, bool_decide (event_attributes !! k = Some v))
          (map_to_list attribute_value_dict) 0 with
  | None => 0
  | Some matched_count =>
      if decide (matched_count = size attribute_value_dict) then 2 else 0
  end.

(** ** The other checks of [utils.py] *)

(** [create_log_reverse_index]: the reverse index of every trace of the
    log, in order. *)
Definition create_log_reverse_index (log : list Trace) (name : str)
    : result (list (gmap str (list nat))) :=
  for_each (λ reverse_indexes trace,
              rev_index ← create_trace_reverse_index trace name;
              Ok (reverse_indexes ++ [rev_index]))
           log [].

Definition check_init_constraint (rev_trace : gmap str (list nat)) (a : str)
    : result Z :=
  if decide (rev_trace !! a = None) then Ok 0
  else
    a_ind ← first_item (rev_getitem rev_trace a);
    if decide (a_ind = 0%nat) then Ok 2 else Ok 0.

Definition check_existence_constraint (rev_trace : gmap str (list nat))
    (a : str) : Z :=
  if decide (rev_trace !! a = None) then 0 else 2.

(** The character [":"], and [s.split(":")[0]]: the part of [s] before
    its first colon, all of [s] when it has none. *)
Definition colon : char := 58%N.

Fixpoint split_head (s : str) : str :=
  match s with
  | [] => []
  | c :: s' => if decide (c = colon) then [] else c :: split_head s'
  end.

(** The loop [for k, v in d.items()] that leaves with 2 at the first item
    that passes [test], and ends with 0. *)
Fixpoint first_match (test : str → str → bool) (items : list (str * str))
    : Z :=
  match items with
  | [] => 0
  | (k, v) :: items' => if test k v then 2 else first_match test items'
  end.

(** The key that [check_one_trace_attribute] compares with [attribute]. *)
Definition attribute_key (attrib : str) : str :=
  if decide (colon ∈ attrib) then split_head attrib else attrib.

Definition check_one_trace_attribute (trace : Trace) (attribute val : str)
    : Z :=
  let trace_attributes := attributes trace in
  first_match
    (λ attrib attrib_val,
       bool_decide (attribute_key attrib = attribute
                    ∧ py_str val = py_str attrib_val))
    (map_to_list trace_attributes).

Fixpoint match_atleast_once (evs : list event) (attribute val : str) : Z :=
  match evs with
  | [] => 0
  | e :: evs' =>
      match e !! attribute with
      | Some v =>
          if decide (py_str v = py_str val) then 2
          else match_atleast_once evs' attribute val
      | None => match_atleast_once evs' attribute val
      end
  end.

Definition check_trace_event_match_atleast_once (trace : Trace)
    (attribute val : str) : Z :=
  match_atleast_once (events trace) attribute val.

(** ** The labelling script [01_data_labeller.py] *)

(** The script reads a log, labels every trace and saves the log once per
    label type. Reading and saving are left out: a function takes the log
    that [load_log] returns, and returns the logs handed to [save_log],
    each with the key that ends its file name. *)

(** [l[i]] on a list. *)
Definition list_getitem {A} (l : list A) (i : nat) : result A :=
  match l !! i with
  | Some x => Ok x
  | None => Raise IndexError
  end.

(** [[f(x) for x in l]] where [f] can raise. *)
Fixpoint map_result {A B} (f : A → result B) (l : list A) : result (list B) :=
  match l with
  | [] => Ok []
  | x :: l' => y ← f x; ys ← map_result f l'; Ok (y :: ys)
  end.

(** ["1" if b else "0"] *)
Definition label_if (b : bool) : str := if b then pystr "1" else pystr "0".

(** [labelling_results[key].append(label)] on a [defaultdict(list)], whose
    keys are kept in the order of their first use. *)
Fixpoint results_append (results : list (str * list str)) (key label : str)
    : list (str * list str) :=
  match results with
  | [] => [(key, [label])]
  | (k, labels) :: results' =>
      if decide (k = key) then (k, labels ++ [label]) :: results'
      else (k, labels) :: results_append results' key label
  end.

(** The labels of one trace, in the order of their [append]s: the body of
    the loop "Finding labels" of each of the five functions. *)
Definition sepsis_labels (rev_trace : gmap str (list nat)) (trace : Trace)
    : result (list (str * str)) :=
  r1 ← check_response_constraint rev_trace (pystr "IV Antibiotics")
         (pystr "Leucocytes");
  r2 ← check_response_constraint rev_trace (pystr "LacticAcid")
         (pystr "IV Antibiotics");
  r3 ← check_response_constraint rev_trace (pystr "ER Triage") (pystr "CRP");
  let decl_res := r1 + r2 + r3 in
  mr_tr_res ← check_sequence_strict_order_interleaved trace
                [pystr "Admission NC"; pystr "CRP"; pystr "Leucocytes"] 1;
  mra_tra_res ← check_sequence_nonstrict_order_interleaved trace
                  [pystr "IV Liquid"; pystr "LacticAcid"; pystr "Leucocytes"]
                  2;
  let payload_res :=
    check_trace_event_attributes trace
      {[ pystr "DisfuncOrg" := pystr "True" ]} in
  Ok [(pystr "declare", label_if (bool_decide (decl_res = 6)));
      (pystr "mr_tr", label_if (bool_decide (mr_tr_res = 2)));
      (pystr "mra_tra", label_if (bool_decide (mra_tra_res = 2)));
      (pystr "payload", label_if (bool_decide (payload_res = 2)))].

Definition traffic_labels (rev_trace : gmap str (list nat)) (trace : Trace)
    : result (list (str * str)) :=
  decl_res ← check_response_constraint rev_trace
               (pystr "Insert Date Appeal to Prefecture")
               (pystr "Add penalty");
  mr_tr_res ← check_sequence_strict_order_interleaved trace
                [pystr "Add penalty"; pystr "Payment"] 1;
  mra_tra_res ← check_sequence_nonstrict_order_interleaved trace
                  [pystr "Create Fine"; pystr "Payment"] 2;
  let payload_art157_res :=
    check_trace_event_attributes trace {[ pystr "article" := pystr "157" ]} in
  let payload_pay36_res :=
    check_trace_event_attributes trace
      {[ pystr "paymentAmount" := pystr "36.0" ]} in
  Ok [(pystr "declare", label_if (bool_decide (decl_res = 2)));
      (pystr "mr_tr", label_if (bool_decide (mr_tr_res = 2)));
      (pystr "mra_tra", label_if (bool_decide (mra_tra_res = 2)));
      (pystr "payload_art157",
       label_if (bool_decide (payload_art157_res = 2)));
      (pystr "payload_pay36",
       label_if (bool_decide (payload_pay36_res = 2)))].

Definition bpi2011_labels (rev_trace : gmap str (list nat)) (trace : Trace)
    : result (list (str * str)) :=
  decl_res ← check_init_constraint rev_trace
               (pystr "outpatient follow-up consultation");
  mr_tr_res ← check_sequence_strict_order_interleaved trace
                [pystr "SGOT"; pystr "SGPT";
                 pystr "Milk acid dehydrogenase LDH kinetic";
                 pystr "leukocyte count electronic"] 1;
  mra_tra_res ← check_sequence_nonstrict_order_interleaved trace
                  [pystr "assumption laboratory";
                   pystr "Milk acid dehydrogenase LDH kinetic"] 2;
  let payload_m13_res :=
    check_one_trace_attribute trace (pystr "Diagnosis code") (pystr "M13") in
  let payload_t101_res :=
    check_one_trace_attribute trace (pystr "Treatment code") (pystr "101") in
  Ok [(pystr "declare", label_if (bool_decide (decl_res = 2)));
      (pystr "mr_tr", label_if (bool_decide (mr_tr_res = 2)));
      (pystr "mra_tra", label_if (bool_decide (mra_tra_res = 2)));
      (pystr "payload_m13", label_if (bool_decide (payload_m13_res = 2)));
      (pystr "payload_t101", label_if (bool_decide (payload_t101_res = 2)))].

Definition bpi2012_labels (rev_trace : gmap str (list nat)) (trace : Trace)
    : result (list (str * str)) :=
  decl_res ← check_precedence_constraint rev_trace (pystr "O_ACCEPTED")
               (pystr "A_APPROVED");
  mr_tr_res ← check_sequence_strict_order_interleaved trace
                [pystr "O_SENT"; pystr "W_Completeren aanvraag";
                 pystr "W_Nabellen incomplete dossiers"] 1;
  mra_tra_res ← check_sequence_nonstrict_order_interleaved trace
                  [pystr "W_Afhandelen leads";
                   pystr "W_Completeren aanvraag"] 3;
  let payload_45000_res :=
    check_trace_attribute trace {[ pystr "AMOUNT_REQ" := pystr "45000" ]} in
  let payload_6500_res :=
    check_trace_attribute trace {[ pystr "AMOUNT_REQ" := pystr "6500" ]} in
  Ok [(pystr "declare", label_if (bool_decide (decl_res = 2)));
      (pystr "mr_tr", label_if (bool_decide (mr_tr_res = 2)));
      (pystr "mra_tra", label_if (bool_decide (mra_tra_res = 2)));
      (pystr "payload_45000",
       label_if (bool_decide (payload_45000_res = 2)));
      (pystr "payload_6500", label_if (bool_decide (payload_6500_res = 2)))].

Definition bpi2015_labels (monitoring_resource : str)
    (rev_trace : gmap str (list nat)) (trace : Trace)
    : result (list (str * str)) :=
  let decl_res := check_existence_constraint rev_trace (pystr "01_HOOFD_011") in
  mr_tr_res ← check_sequence_strict_order_interleaved trace
                [pystr "08_AWB45_005"; pystr "01_HOOFD_200"] 1;
  mra_tra_res ← check_sequence_nonstrict_order_interleaved trace
                  [pystr "01_HOOFD_030_1"; pystr "01_HOOFD_510_1"] 2;
  let payload_monitoring_res :=
    check_trace_event_attributes trace
      {[ pystr "monitoringResource" := monitoring_resource ]} in
  Ok [(pystr "declare", label_if (bool_decide (decl_res = 2)));
      (pystr "mr_tr", label_if (bool_decide (mr_tr_res = 2)));
      (pystr "mra_tra", label_if (bool_decide (mra_tra_res = 2)));
      (pystr "payload_monitoring_res",
       label_if (bool_decide (payload_monitoring_res = 2)))].

(** The loop "Finding labels", which the five functions share but for
    the labels of a trace: [labelling_results] after the loop. *)
Definition find_labels
    (labels_of : gmap str (list nat) → Trace → result (list (str * str)))
    (log : list Trace) (log_rev_index : list (gmap str (list nat)))
    : result (list (str * list str)) :=
  for_each (λ labelling_results log_ind,
              rev_trace ← list_getitem log_rev_index log_ind;
              trace ← list_getitem log log_ind;
              labels ← labels_of rev_trace trace;
              Ok (foldl (λ results kl, results_append results kl.1 kl.2)
                        labelling_results labels))
           (seq 0 (length log)) [].

(** [trace.attributes["Label"] = label] *)
Definition set_label (trace : Trace) (label : str) : Trace :=
  mkTrace (<[ pystr "Label" := label ]> (attributes trace)) (events trace).

(** [for log_ind in range(len(log)): log[log_ind].attributes["Label"] =
    labels[log_ind]]: the log after the assignments. *)
Definition set_labels (log : list Trace) (labels : list str)
    : result (list Trace) :=
  for_each (λ log log_ind,
              label ← list_getitem labels log_ind;
              trace ← list_getitem log log_ind;
              Ok (<[ log_ind := set_label trace label ]> log))
           (seq 0 (length log)) log.

(** The loop "Create logs": the state is the log, which the assignments
    change in place, and the logs saved so far with their keys. *)
Definition save_labelled_logs (labelling_results : list (str * list str))
    (log : list Trace) : result (list (str * list Trace)) :=
  st ← for_each (λ (st : list Trace * list (str * list Trace)) kl,
                   log ← set_labels st.1 kl.2;
                   Ok (log, st.2 ++ [(kl.1, log)]))
                labelling_results (log, []);
  Ok st.2.

(** What the five functions do with a log that they have read. *)
Definition create_labelled_logs
    (labels_of : gmap str (list nat) → Trace → result (list (str * str)))
    (log : list Trace) : result (list (str * list Trace)) :=
  log_rev_index ← create_log_reverse_index log concept_name;
  labelling_results ← find_labels labels_of log log_rev_index;
  save_labelled_logs labelling_results log.

Definition create_sepsis_labelled_logs (log : list Trace) :=
  create_labelled_logs sepsis_labels log.

(** The renaming of events in [create_bpi2011_labelled_logs]. *)
Definition event_replacement_dict : gmap str str :=
  {[ pystr "SGOT - Asat kinetic" := pystr "SGOT";
     pystr "SGOT Asat kinetic - urgent" := pystr "SGOT";
     pystr "SGPT - alat kinetic" := pystr "SGPT";
     pystr "SGPT alat kinetic - urgent" := pystr "SGPT" ]}.

Definition rename_event (e : event) : result event :=
  n ← getitem e concept_name;
  match event_replacement_dict !! n with
  | Some replacement => Ok (<[ concept_name := replacement ]> e)
  | None => Ok e
  end.

Definition rename_events (log : list Trace) : result (list Trace) :=
  map_result (λ trace,
                evs ← map_result rename_event (events trace);
                Ok (mkTrace (attributes trace) evs))
             log.

Definition create_bpi2011_labelled_logs (log : list Trace) :=
  log ← rename_events log;
  create_labelled_logs bpi2011_labels log.

(** ** Notions of the specification *)

(** The window of width [m] that starts at position [i]. *)
Definition window {A} (m : nat) (s : list A) (i : nat) : list A :=
  take m (drop i s).

(** Start positions in ascending order, any two of them at least [m]
    apart: windows of width [m] at these positions do not overlap. *)
Definition Gapped (m : nat) (ps : list nat) : Prop :=
  StronglySorted (λ i j, i + m ≤ j)%nat ps.

(** [i] is the last (first) position of [a] in [names]. *)
Definition is_last (names : list str) (a : str) (i : nat) : Prop :=
  names !! i = Some a ∧ ∀ j, (i < j)%nat → names !! j ≠ Some a.

Definition is_first (names : list str) (a : str) (i : nat) : Prop :=
  names !! i = Some a ∧ ∀ j, (j < i)%nat → names !! j ≠ Some a.

(** [p] occurs in [t] as a contiguous piece. *)
Definition infix {A} (p t : list A) : Prop :=
  ∃ l1 l2, t = l1 ++ p ++ l2.

(** The number of positions at which [pattern] occurs in [names] as a
    contiguous run, overlapping occurrences included. *)
Definition overlapping_count (pattern names : list str) : nat :=
  length (filter (λ i, window (length pattern) names i = pattern)
                 (seq 0 (length names))).

(** Earliest-first selection of non-overlapping windows whose names are
    those of [sequence] in any order, over all windows of the trace, and
    the number of windows it selects. *)
Definition greedy_windows (sequence names : list str) : nat :=
  scan_windows (λ w, bool_decide (w ≡ₚ sequence)) (length sequence) 0 names.

(** The value of key [k] in the first event that carries it. *)
Fixpoint first_carrying (k : str) (evs : list event) : option str :=
  match evs with
  | [] => None
  | e :: evs' =>
      match e !! k with
      | Some v => Some v
      | None => first_carrying k evs'
      end
  end.

(** A call fails fast when it raises instead of returning a verdict. *)
Definition fails_fast {A} (r : result A) : Prop := ∃ e, r = Raise e.

(** Concrete activity names. *)
Definition act_A : str := pystr "A".
Definition act_B : str := pystr "B".
Definition act_C : str := pystr "C".
Definition act_X : str := pystr "X".
Definition act_XA : str := pystr "XA".

(** ** Auxiliary notions of the proofs *)

(** The index after the loop of [create_trace_reverse_index] has run over
    the names [ns] from position [i], and the positions of [a] it holds. *)
Fixpoint index_names (ns : list str) (i : nat) (rev : gmap str (list nat))
    : gmap str (list nat) :=
  match ns with
  | [] => rev
  | k :: ns' => index_names ns' (S i) (rev_append rev k i)
  end.

Fixpoint positions (a : str) (ns : list str) (i : nat) : list nat :=
  match ns with
  | [] => []
  | k :: ns' =>
      if decide (k = a) then i :: positions a ns' (S i)
      else positions a ns' (S i)
  end.

(** [p] starts a window of [s] that [P] accepts. *)
Definition accepted {A} (P : list A → bool) (m : nat) (s : list A) (p : nat)
    : Prop :=
  P (window m s p) = true ∧ (p < length s)%nat.

(** What follows the first name in a joined string. *)
Definition join_rest (d : char) (l : list str) : str :=
  match l with
  | [] => []
  | _ :: _ => d :: join [d] l
  end.

(** The indices the loop of [filter_indices] appends, from the bound
    [next_min_index] on. *)
Fixpoint select (m : nat) (next_min_index : nat) (l : list nat) : list nat :=
  match l with
  | [] => []
  | next_ind :: l' =>
      if decide (next_min_index ≤ next_ind)%nat
      then next_ind :: select m (next_ind + m) l'
      else select m next_min_index l'
  end.

(** [t'] is [t] but for its label. *)
Definition relabelled (t t' : Trace) : Prop :=
  ∀ label, set_label t' label = set_label t label.

(** The keys of the labels of the five logs. *)
Definition sepsis_keys : list str :=
  [pystr "declare"; pystr "mr_tr"; pystr "mra_tra"; pystr "payload"].
Definition traffic_keys : list str :=
  [pystr "declare"; pystr "mr_tr"; pystr "mra_tra"; pystr "payload_art157";
   pystr "payload_pay36"].
Definition bpi2011_keys : list str :=
  [pystr "declare"; pystr "mr_tr"; pystr "mra_tra"; pystr "payload_m13";
   pystr "payload_t101"].
Definition bpi2012_keys : list str :=
  [pystr "declare"; pystr "mr_tr"; pystr "mra_tra"; pystr "payload_45000";
   pystr "payload_6500"].
Definition bpi2015_keys : list str :=
  [pystr "declare"; pystr "mr_tr"; pystr "mra_tra";
   pystr "payload_monitoring_res"].

(** Labels with the keys [keys], each ["0"] or ["1"]. *)
Definition labels_for (keys : list str) (row : list (str * str)) : Prop :=
  row.*1 = keys ∧ Forall (λ kl, kl.2 = pystr "0" ∨ kl.2 = pystr "1") row.

(** The name of an event after the renaming. *)
Definition replaced_name (n : str) : str :=
  default n (event_replacement_dict !! n).

(** The event after the renaming, when it carries a name. *)
Definition renamed_event (e : event) : event :=
  match e !! concept_name with
  | Some n => <[ concept_name := replaced_name n ]> e
  | None => e
  end.

Definition renamed_trace (trace : Trace) : Trace :=
  mkTrace (attributes trace) (renamed_event <$> events trace).

(** Every event of the trace carries a name. *)
Definition named (trace : Trace) : Prop :=
  Forall (λ e, is_Some (e !! concept_name)) (events trace).

(** * Properties *)

(** ** The error monad *)

Lemma bind_Ok {A B} (f : A → result B) (a : A) : (Ok a ≫= f) = f a.
Proof. reflexivity. Qed.

Lemma bind_Ok_inv {A B} (f : A → result B) (r : result A) (b : B) :
  (r ≫= f) = Ok b → ∃ a, r = Ok a ∧ f a = Ok b.
Proof. destruct r as [a|e]; [eauto | discriminate]. Qed.

Lemma names_of_length name evs names :
  names_of name evs = Ok names → length names = length evs.
Proof.
  revert names. induction evs as [|e evs IH]; intros names H; simpl in H.
  - by inversion H.
  - apply bind_Ok_inv in H as (n & _ & H).
    apply bind_Ok_inv in H as (ns & Hns & H).
    inversion H; subst. simpl. f_equal. by apply IH.
Qed.

Lemma names_of_cons_inv name e evs names :
  names_of name (e :: evs) = Ok names →
  ∃ n ns, names = n :: ns ∧ e !! name = Some n ∧ names_of name evs = Ok ns.
Proof.
  simpl. unfold getitem. destruct (e !! name) as [n|]; [|discriminate].
  rewrite bind_Ok. destruct (names_of name evs) as [ns|]; [|discriminate].
  rewrite bind_Ok. intros [= <-]. eauto.
Qed.

Lemma names_of_app name evs1 evs2 ns1 ns2 :
  names_of name evs1 = Ok ns1 → names_of name evs2 = Ok ns2 →
  names_of name (evs1 ++ evs2) = Ok (ns1 ++ ns2).
Proof.
  revert ns1. induction evs1 as [|e evs1 IH]; intros ns1 H1 H2.
  - by inversion H1.
  - apply names_of_cons_inv in H1 as (n & ns & -> & He & Hns).
    simpl. unfold getitem. rewrite He, bind_Ok.
    by rewrite (IH ns Hns H2).
Qed.

Lemma names_of_trace_of ns : event_names concept_name (trace_of ns) = Ok ns.
Proof.
  unfold event_names, trace_of. cbn [events].
  induction ns as [|n ns IH]; [done|].
  rewrite fmap_cons. cbn [names_of]. rewrite IH.
  unfold getitem, named_event. by rewrite lookup_singleton_eq.
Qed.

(** ** Reverse index *)

Lemma rev_index_loop name evs names i rev :
  names_of name evs = Ok names →
  for_each (rev_index_body name) evs (i, rev)
  = Ok ((i + length names)%nat, index_names names i rev).
Proof.
  revert names i rev. induction evs as [|e evs IH]; intros names i rev H.
  - inversion H; subst. simpl. do 2 f_equal. lia.
  - apply names_of_cons_inv in H as (n & ns & -> & He & Hns).
    cbn [for_each].
    replace (rev_index_body name (i, rev) e) with (Ok (S i, rev_append rev n i))
      by (unfold rev_index_body, getitem; by rewrite He).
    rewrite bind_Ok, (IH ns _ _ Hns). cbn [length index_names].
    do 2 f_equal. lia.
Qed.

Lemma positions_absent a ns i : a ∉ ns → positions a ns i = [].
Proof.
  revert i. induction ns as [|k ns IH]; intros i Hin; [done|].
  simpl. rewrite decide_False by set_solver. apply IH. set_solver.
Qed.

Lemma index_names_lookup a ns i rev :
  index_names ns i rev !! a
  = if decide (a ∈ ns) then Some (default [] (rev !! a) ++ positions a ns i)
    else rev !! a.
Proof.
  revert i rev.
  induction ns as [|k ns IH]; intros i rev; cbn [index_names positions].
  - rewrite decide_False; [done | apply not_elem_of_nil].
  - rewrite IH. unfold rev_append.
    destruct (decide (k = a)) as [->|Hne].
    + rewrite lookup_insert_eq. cbn [default].
      rewrite (decide_True (P := a ∈ a :: ns)) by left.
      unfold id.
      case_decide; [by rewrite <- app_assoc|].
      by rewrite positions_absent.
    + rewrite lookup_insert_ne by done.
      destruct (decide (a ∈ ns)) as [Hin|Hin].
      * by rewrite decide_True by (by right).
      * rewrite decide_False; [done|].
        intros [?|?]%elem_of_cons; congruence.
Qed.

Lemma elem_of_positions a ns i j :
  j ∈ positions a ns i ↔ (i ≤ j)%nat ∧ ns !! (j - i)%nat = Some a.
Proof.
  revert i. induction ns as [|k ns IH]; intros i; cbn [positions].
  - split; [by intros ?%elem_of_nil | by intros [_ ?]].
  - assert ((S i ≤ j)%nat ∧ ns !! (j - S i)%nat = Some a
            ↔ (i < j)%nat ∧ (k :: ns) !! (j - i)%nat = Some a) as Hshift.
    { split; intros [Hle H]; (split; [lia|]).
      - by replace (j - i)%nat with (S (j - S i)) by lia.
      - by replace (j - i)%nat with (S (j - S i)) in H by lia. }
    destruct (decide (k = a)) as [->|Hne].
    + rewrite elem_of_cons, IH, Hshift. split.
      * intros [->|[? ?]]; [|split; [lia|done]].
        split; [lia|]. by rewrite Nat.sub_diag.
      * intros [Hle H]. destruct (decide (j = i)) as [->|]; [by left|].
        right. split; [lia|done].
    + rewrite IH, Hshift. split; [intros [? ?]; split; [lia|done]|].
      intros [Hle H]. destruct (decide (j = i)) as [->|]; [|split; [lia|done]].
      rewrite Nat.sub_diag in H. simpl in H. congruence.
Qed.

Lemma positions_sorted a ns i : StronglySorted lt (positions a ns i).
Proof.
  revert i. induction ns as [|k ns IH]; intros i; simpl; [constructor|].
  case_decide; [|apply IH]. constructor; [apply IH|].
  apply Forall_forall. intros j Hj%elem_of_positions. lia.
Qed.

(** The index of a trace whose events all carry a name: present names
    are mapped to their positions, in ascending order. *)
Lemma reverse_index_spec trace name names :
  event_names name trace = Ok names →
  create_trace_reverse_index trace name = Ok (index_names names 0 ∅)
  ∧ ∀ a, index_names names 0 ∅ !! a
         = if decide (a ∈ names) then Some (positions a names 0) else None.
Proof.
  intros H. split.
  - unfold create_trace_reverse_index. by rewrite (rev_index_loop _ _ _ _ _ H).
  - intros a. rewrite index_names_lookup, lookup_empty. done.
Qed.

Lemma elem_of_positions_0 a ns j : j ∈ positions a ns 0 ↔ ns !! j = Some a.
Proof.
  rewrite elem_of_positions, Nat.sub_0_r. split; [by intros [_ ?]|].
  intros ?. split; [lia|done].
Qed.

(** [C8] For every trace (the empty one included) whose events carry the
    key [name], [create_trace_reverse_index] returns a mapping in which
    every activity name that occurs in the trace is mapped to the strictly
    ascending list of exactly the positions below the trace length at
    which it occurs, and in which a name that does not occur is absent. *)
Theorem reverse_index_positions (trace : Trace) (name : str) (names : list str) :
  event_names name trace = Ok names →
  ∃ rev_index,
    create_trace_reverse_index trace name = Ok rev_index
    ∧ ∀ a,
        (a ∈ names →
         ∃ ps, rev_index !! a = Some ps
               ∧ StronglySorted lt ps
               ∧ Forall (λ i, i < length names)%nat ps
               ∧ ∀ i, i ∈ ps ↔ names !! i = Some a)
        ∧ (a ∉ names → rev_index !! a = None).
Proof.
  intros H. destruct (reverse_index_spec _ _ _ H) as [Hrev Hlook].
  eexists. split; [exact Hrev|]. intros a. rewrite Hlook. split; intros Hin.
  - rewrite decide_True by done. eexists. split; [done|].
    split; [apply positions_sorted|]. split.
    + apply Forall_forall. intros i Hi%elem_of_positions_0.
      by eapply lookup_lt_Some.
    + intros i. apply elem_of_positions_0.
  - by rewrite decide_False.
Qed.

Lemma reverse_index_positions_witness :
  ∃ rev_index,
    create_trace_reverse_index (trace_of [act_A; act_B; act_A]) concept_name
    = Ok rev_index
    ∧ ∀ a,
        (a ∈ [act_A; act_B; act_A] →
         ∃ ps, rev_index !! a = Some ps
               ∧ StronglySorted lt ps
               ∧ Forall (λ i, i < length [act_A; act_B; act_A])%nat ps
               ∧ ∀ i, i ∈ ps ↔ [act_A; act_B; act_A] !! i = Some a)
        ∧ (a ∉ [act_A; act_B; act_A] → rev_index !! a = None).
Proof.
  apply (reverse_index_positions (trace_of [act_A; act_B; act_A])
           concept_name [act_A; act_B; act_A]).
  apply names_of_trace_of.
Defined.

(** ** Declarative constraints *)

Lemma last_sorted_max (ps : list nat) (x : nat) :
  StronglySorted lt ps → x ∈ ps → (∀ y, y ∈ ps → (y ≤ x)%nat) →
  last ps = Some x.
Proof.
  induction 1 as [|y ps Hs IH Hall]; intros Hin Hmax.
  - by apply elem_of_nil in Hin.
  - destruct ps as [|z ps'].
    + apply list_elem_of_singleton in Hin. by subst.
    + change (last (y :: z :: ps')) with (last (z :: ps')).
      apply IH; [|intros; apply Hmax; by right].
      apply elem_of_cons in Hin as [->|Hin]; [|done].
      apply Forall_cons in Hall as [Hlt _].
      assert (z ≤ y)%nat by (apply Hmax; right; left). lia.
Qed.

Lemma head_sorted_min (ps : list nat) (x : nat) :
  StronglySorted lt ps → x ∈ ps → (∀ y, y ∈ ps → (x ≤ y)%nat) →
  head ps = Some x.
Proof.
  intros Hs Hin Hmin. destruct ps as [|y ps]; [by apply elem_of_nil in Hin|].
  simpl. f_equal. apply StronglySorted_inv in Hs as [_ Hall].
  apply elem_of_cons in Hin as [->|Hin]; [done|].
  rewrite Forall_forall in Hall. specialize (Hall x Hin).
  assert (x ≤ y)%nat by (apply Hmin; left). lia.
Qed.

Lemma positions_last names a i :
  is_last names a i → last_item (positions a names 0) = Ok i.
Proof.
  intros [Hi Hlast]. unfold last_item.
  rewrite (last_sorted_max _ i); [done|apply positions_sorted|..].
  - by apply elem_of_positions_0.
  - intros y Hy%elem_of_positions_0.
    destruct (decide (y ≤ i)%nat); [done|]. destruct (Hlast y); [lia|done].
Qed.

Lemma positions_first names a i :
  is_first names a i → first_item (positions a names 0) = Ok i.
Proof.
  intros [Hi Hfirst].
  assert (head (positions a names 0) = Some i) as Hhd.
  { apply head_sorted_min; [apply positions_sorted|..].
    - by apply elem_of_positions_0.
    - intros y Hy%elem_of_positions_0.
      destruct (decide (i ≤ y)%nat); [done|]. destruct (Hfirst y); [lia|done]. }
  destruct (positions a names 0); by inversion Hhd.
Qed.

Lemma is_last_elem_of names a i : is_last names a i → a ∈ names.
Proof. intros [Hi _]. by eapply list_elem_of_lookup_2. Qed.

Lemma is_first_elem_of names a i : is_first names a i → a ∈ names.
Proof. intros [Hi _]. by eapply list_elem_of_lookup_2. Qed.

(** Every name of the trace has a last and a first position. *)
Lemma is_last_exists names a : a ∈ names → ∃ i, is_last names a i.
Proof.
  induction names as [|k names IH]; intros Hin; [by apply elem_of_nil in Hin|].
  destruct (decide (a ∈ names)) as [Hin'|Hnin].
  - destruct (IH Hin') as (i & Hi & Hlast). exists (S i). split; [done|].
    intros [|j] Hj; [lia|]. apply Hlast. lia.
  - apply elem_of_cons in Hin as [->|]; [|done]. exists 0%nat. split; [done|].
    intros [|j] Hj; [lia|]. simpl. intros Hk. apply Hnin.
    by eapply list_elem_of_lookup_2.
Qed.

Lemma is_first_exists names a : a ∈ names → ∃ i, is_first names a i.
Proof.
  induction names as [|k names IH]; intros Hin; [by apply elem_of_nil in Hin|].
  destruct (decide (k = a)) as [->|Hne].
  - exists 0%nat. split; [done|]. intros j Hj. lia.
  - apply elem_of_cons in Hin as [->|Hin]; [done|].
    destruct (IH Hin) as (i & Hi & Hfirst). exists (S i). split; [done|].
    intros [|j] Hj; simpl; [congruence|]. apply Hfirst. lia.
Qed.

(** [C3] On the reverse index of a trace, [check_response_constraint]
    returns 1 when [a] never occurs, 0 when [a] occurs and [b] does not,
    and otherwise 2 exactly when the last position of [b] exceeds the last
    position of [a], else 0; [check_precedence_constraint] returns 1 when
    [b] never occurs, 0 when [b] occurs and [a] does not, and otherwise 2
    exactly when the first position of [a] precedes the first position of
    [b], else 0. *)
Theorem response_precedence_verdicts (trace : Trace) (names : list str)
    (a b : str) :
  event_names concept_name trace = Ok names →
  ∃ rev_trace,
    create_trace_reverse_index trace concept_name = Ok rev_trace
    ∧ (a ∉ names → check_response_constraint rev_trace a b = Ok 1)
    ∧ (a ∈ names → b ∉ names →
       check_response_constraint rev_trace a b = Ok 0)
    ∧ (∀ la lb, is_last names a la → is_last names b lb →
       check_response_constraint rev_trace a b
       = Ok (if decide (la < lb)%nat then 2 else 0))
    ∧ (b ∉ names → check_precedence_constraint rev_trace a b = Ok 1)
    ∧ (b ∈ names → a ∉ names →
       check_precedence_constraint rev_trace a b = Ok 0)
    ∧ (∀ fa fb, is_first names a fa → is_first names b fb →
       check_precedence_constraint rev_trace a b
       = Ok (if decide (fa < fb)%nat then 2 else 0)).
Proof.
  intros H. destruct (reverse_index_spec _ _ _ H) as [Hrev Hlook].
  eexists. split; [exact Hrev|].
  unfold check_response_constraint, check_precedence_constraint, rev_getitem.
  repeat split.
  - intros Ha. rewrite !Hlook, (decide_False (P := a ∈ names)) by done.
    by rewrite decide_True.
  - intros Ha Hb. rewrite !Hlook, (decide_True (P := a ∈ names)) by done.
    rewrite (decide_False (P := b ∈ names)) by done.
    rewrite decide_False by done. by rewrite decide_True.
  - intros la lb Hla Hlb. rewrite !Hlook.
    rewrite (decide_True (P := a ∈ names)) by by eapply is_last_elem_of.
    rewrite (decide_True (P := b ∈ names)) by by eapply is_last_elem_of.
    rewrite !decide_False by done. cbn [default]. unfold id.
    rewrite (positions_last _ _ _ Hla), bind_Ok.
    rewrite (positions_last _ _ _ Hlb), bind_Ok. by case_decide.
  - intros Hb. rewrite !Hlook, (decide_False (P := b ∈ names)) by done.
    by rewrite decide_True.
  - intros Hb Ha. rewrite !Hlook, (decide_True (P := b ∈ names)) by done.
    rewrite (decide_False (P := a ∈ names)) by done.
    rewrite decide_False by done. by rewrite decide_True.
  - intros fa fb Hfa Hfb. rewrite !Hlook.
    rewrite (decide_True (P := a ∈ names)) by by eapply is_first_elem_of.
    rewrite (decide_True (P := b ∈ names)) by by eapply is_first_elem_of.
    rewrite !decide_False by done. cbn [default]. unfold id.
    rewrite (positions_first _ _ _ Hfa), bind_Ok.
    rewrite (positions_first _ _ _ Hfb), bind_Ok. by case_decide.
Qed.

Lemma response_precedence_verdicts_witness :
  ∃ rev_trace,
    create_trace_reverse_index (trace_of [act_A; act_X; act_B]) concept_name
    = Ok rev_trace
    ∧ check_response_constraint rev_trace act_A act_B = Ok 2
    ∧ check_precedence_constraint rev_trace act_A act_B = Ok 2.
Proof.
  destruct (response_precedence_verdicts (trace_of [act_A; act_X; act_B])
              [act_A; act_X; act_B] act_A act_B (names_of_trace_of _))
    as (rev_trace & Hrev & _ & _ & Hresp & _ & _ & Hprec).
  exists rev_trace. split; [exact Hrev|]. split.
  - apply (Hresp 0%nat 2%nat).
    + split; [reflexivity|]. intros [|[|[|j]]] Hj; try lia; discriminate.
    + split; [reflexivity|]. intros [|[|[|j]]] Hj; try lia; discriminate.
  - apply (Hprec 0%nat 2%nat).
    + split; [reflexivity|]. intros j Hj; lia.
    + split; [reflexivity|]. intros [|[|j]] Hj; try lia; discriminate.
Defined.

(** ** Scanning for non-overlapping windows *)

Section scan.
Local Open Scope nat_scope.
Context {A : Type} (P : list A → bool) (m : nat).
Hypothesis m_pos : 0 < m.

Lemma scan_windows_skip k s :
  scan_windows P m k s = scan_windows P m 0 (drop k s).
Proof.
  revert k. induction s as [|x s IH]; intros [|k]; try done.
  simpl. apply IH.
Qed.

Lemma scan_windows_cons x s :
  scan_windows P m 0 (x :: s)
  = if P (take m (x :: s)) then S (scan_windows P m 0 (drop m (x :: s)))
    else scan_windows P m 0 s.
Proof.
  cbn [scan_windows]. destruct (P (take m (x :: s))); [|done].
  rewrite scan_windows_skip. destruct m; [lia|].
  by rewrite Nat.sub_succ, Nat.sub_0_r.
Qed.

Local Abbreviation accepted := (accepted P m).

Lemma Gapped_shift_down d ps :
  Gapped m ps → Forall (λ p, d ≤ p) ps → Gapped m ((λ p, p - d) <$> ps).
Proof.
  intros Hg Hd. unfold Gapped.
  induction Hg as [|p ps Hg IH Hall]; [constructor|].
  apply Forall_cons in Hd as [Hp Hd]. rewrite fmap_cons.
  constructor; [by apply IH|].
  apply Forall_fmap. rewrite Forall_forall in *.
  intros q Hq. specialize (Hall q Hq). specialize (Hd q Hq). simpl. lia.
Qed.

Lemma Gapped_shift_up d ps : Gapped m ps → Gapped m ((λ p, d + p) <$> ps).
Proof.
  unfold Gapped. induction 1 as [|p ps Hg IH Hall]; [constructor|].
  rewrite fmap_cons. constructor; [done|].
  apply Forall_fmap. rewrite Forall_forall in *.
  intros q Hq. specialize (Hall q Hq). simpl. lia.
Qed.

Lemma accepted_drop s d p : d ≤ p → accepted s p → accepted (drop d s) (p - d).
Proof.
  intros Hd [HP Hlen]. split.
  - unfold window in *. rewrite drop_drop.
    by replace (d + (p - d)) with p by lia.
  - rewrite length_drop. lia.
Qed.

Lemma accepted_undrop s d p : accepted (drop d s) p → accepted s (d + p).
Proof.
  intros [HP Hlen]. split.
  - unfold window in *. by rewrite drop_drop in HP.
  - rewrite length_drop in Hlen. lia.
Qed.

(** The scan counts at least as many windows as any selection of
    accepted windows that do not overlap. *)
Lemma scan_windows_optimal s ps :
  Gapped m ps → Forall (accepted s) ps →
  length ps ≤ scan_windows P m 0 s.
Proof.
  remember (length s) as n eqn:Hn. revert s Hn ps.
  induction n as [n IH] using lt_wf_ind. intros s -> ps Hg Hacc.
  destruct ps as [|p ps]; [simpl; lia|].
  destruct s as [|x s].
  { apply Forall_cons in Hacc as [[_ Hlen] _]. simpl in Hlen. lia. }
  rewrite scan_windows_cons.
  destruct (P (take m (x :: s))) eqn:Hhd.
  - apply StronglySorted_inv in Hg as [Hg Hall].
    apply Forall_cons in Hacc as [_ Hacc]. simpl. apply le_n_S.
    assert (Forall (λ q, m ≤ q) ps) as Hm.
    { eapply Forall_impl; [exact Hall|]. simpl. intros; lia. }
    rewrite <- (length_fmap (λ q, q - m) ps).
    apply (IH (length (drop m (x :: s)))); [|done|..].
    + rewrite length_drop. simpl. lia.
    + by apply Gapped_shift_down.
    + apply Forall_fmap. rewrite Forall_forall in *.
      intros q Hq. apply accepted_drop; auto.
  - assert (Forall (λ q, 1 ≤ q) (p :: ps)) as H1.
    { pose proof Hg as Hg'. apply StronglySorted_inv in Hg' as [_ Hall].
      assert (1 ≤ p).
      { apply Forall_cons in Hacc as [[HP _] _].
        destruct p; [|lia]. unfold window in HP. rewrite drop_0 in HP.
        congruence. }
      constructor; [done|].
      eapply Forall_impl; [exact Hall|]. simpl. intros; lia. }
    rewrite <- (length_fmap (λ q, q - 1) (p :: ps)).
    apply (IH (length s)); [simpl; lia|done|..].
    + by apply Gapped_shift_down.
    + apply Forall_fmap. rewrite Forall_forall in *.
      intros q Hq. apply (accepted_drop (x :: s) 1); auto.
Qed.

(** The windows the scan counts are accepted and do not overlap. *)
Lemma scan_windows_achieved s :
  ∃ ps, Gapped m ps ∧ Forall (accepted s) ps
        ∧ length ps = scan_windows P m 0 s.
Proof.
  remember (length s) as n eqn:Hn. revert s Hn.
  induction n as [n IH] using lt_wf_ind. intros s ->.
  destruct s as [|x s].
  { exists []. repeat split; constructor. }
  rewrite scan_windows_cons.
  destruct (P (take m (x :: s))) eqn:Hhd.
  - destruct (IH (length (drop m (x :: s)))) with (s := drop m (x :: s))
      as (ps & Hg & Hacc & Hlen); [rewrite length_drop; simpl; lia|done|].
    exists (0 :: ((λ p, m + p) <$> ps)). repeat split.
    + constructor; [by apply Gapped_shift_up|].
      apply Forall_fmap, Forall_forall. intros q _. simpl. lia.
    + constructor.
      * split; [|simpl; lia]. unfold window. by rewrite drop_0.
      * apply Forall_fmap. eapply Forall_impl; [exact Hacc|].
        intros q Hq. by apply accepted_undrop.
    + simpl. by rewrite length_fmap, Hlen.
  - destruct (IH (length s)) with (s := s)
      as (ps & Hg & Hacc & Hlen); [simpl; lia|done|].
    exists ((λ p, 1 + p) <$> ps). repeat split.
    + by apply Gapped_shift_up.
    + apply Forall_fmap. eapply Forall_impl; [exact Hacc|].
      intros q Hq. by apply (accepted_undrop (x :: s) 1).
    + by rewrite length_fmap.
Qed.
End scan.

(** ** [join] and [str_count] *)

Lemma join_cons delim x y l :
  join delim (x :: y :: l) = x ++ delim ++ join delim (y :: l).
Proof. reflexivity. Qed.

Lemma join_app delim l1 l2 :
  l1 ≠ [] → l2 ≠ [] →
  join delim (l1 ++ l2) = join delim l1 ++ delim ++ join delim l2.
Proof.
  intros H1 H2. induction l1 as [|x l1 IH]; [done|].
  destruct l1 as [|y l1].
  - destruct l2; [done|]. reflexivity.
  - change ((x :: y :: l1) ++ l2) with (x :: y :: (l1 ++ l2)).
    rewrite !join_cons. change (y :: l1 ++ l2) with ((y :: l1) ++ l2).
    rewrite IH by done. by rewrite <- !app_assoc.
Qed.

Lemma window_length_le {A} m (s : list A) p w :
  (0 < m)%nat → window m s p = w → length w = m → (p + m ≤ length s)%nat.
Proof.
  intros Hm <-. unfold window. rewrite length_take, length_drop. lia.
Qed.

Lemma window_app_l {A} m (s t : list A) p :
  (p + m ≤ length s)%nat → window m (s ++ t) p = window m s p.
Proof.
  intros Hle. unfold window. rewrite drop_app_le by lia.
  apply take_app_le. rewrite length_drop. lia.
Qed.

Lemma window_app_r {A} m (s t : list A) p :
  window m (t ++ s) (length t + p) = window m s p.
Proof.
  unfold window. rewrite <- drop_drop. by rewrite drop_app_length.
Qed.

Lemma str_count_cons s c sub :
  str_count s (c :: sub)
  = scan_windows (equal_to (c :: sub)) (S (length sub)) 0 s.
Proof. reflexivity. Qed.

Lemma equal_to_true {A} `{EqDecision A} (sub w : list A) :
  equal_to sub w = true ↔ w = sub.
Proof. apply bool_decide_eq_true. Qed.

(** Occurrences in both halves of [s ++ delim ++ s] are counted. *)
Lemma str_count_twice s delim sub :
  delim ≠ [] →
  (1 ≤ str_count s sub)%nat → (2 ≤ str_count (s ++ delim ++ s) sub)%nat.
Proof.
  intros Hd H1. destruct sub as [|c sub].
  { simpl. rewrite !length_app. destruct delim; [done|]. simpl. lia. }
  rewrite str_count_cons in *.
  set (m := S (length sub)) in *.
  destruct (scan_windows_achieved (equal_to (c :: sub)) m
              (Nat.lt_0_succ _) s) as (ps & _ & Hacc & Hlen).
  destruct ps as [|p ps]; [simpl in Hlen; lia|].
  apply Forall_cons in Hacc as [[HP _] _].
  apply equal_to_true in HP.
  pose proof (window_length_le _ _ _ _ (Nat.lt_0_succ _) HP eq_refl) as Hfit.
  fold m in Hfit.
  apply (scan_windows_optimal _ m (Nat.lt_0_succ _) _
           [p; (length (s ++ delim) + p)%nat]).
  - repeat constructor. rewrite length_app. lia.
  - repeat constructor.
    + apply equal_to_true. by rewrite window_app_l by lia.
    + rewrite !length_app. lia.
    + apply equal_to_true.
      by rewrite (app_assoc s delim s), window_app_r.
    + rewrite !length_app. unfold m in *. lia.
Qed.

(** ** Strict contiguous matching *)

Lemma strict_order_unfold trace sequence count hack_delim name names :
  event_names name trace = Ok names →
  ¬ (Z.of_nat (length names) < count) →
  check_sequence_strict_order trace sequence count hack_delim name
  = Ok (if decide (count ≤ Z.of_nat (str_count (join hack_delim names)
                                                (join hack_delim sequence)))
        then 2 else 0).
Proof.
  intros Hnames Hlen. unfold check_sequence_strict_order.
  rewrite <- (names_of_length _ _ _ Hnames), decide_False by done.
  rewrite Hnames, bind_Ok. by case_decide.
Qed.

Lemma strict_order_satisfied_inv trace sequence count hack_delim name :
  check_sequence_strict_order trace sequence count hack_delim name = Ok 2 →
  ∃ names, event_names name trace = Ok names
           ∧ count ≤ Z.of_nat (length names)
           ∧ count ≤ Z.of_nat (str_count (join hack_delim names)
                                         (join hack_delim sequence)).
Proof.
  unfold check_sequence_strict_order. case_decide as Hlen; [discriminate|].
  intros H. apply bind_Ok_inv in H as (names & Hnames & H).
  exists names. split; [done|].
  rewrite (names_of_length _ _ _ Hnames). split; [lia|].
  by case_decide.
Qed.

(** [C7] When [check_sequence_strict_order] is satisfied on a trace for
    [count = 1], it is satisfied on the trace followed by itself for
    [count = 2]. *)
Theorem strict_order_twice (trace : Trace) (sequence : list str)
    (hack_delim name : str) :
  sequence ≠ [] → hack_delim ≠ [] →
  check_sequence_strict_order trace sequence 1 hack_delim name = Ok 2 →
  check_sequence_strict_order (trace_twice trace) sequence 2 hack_delim name
  = Ok 2.
Proof.
  intros _ Hd H.
  apply strict_order_satisfied_inv in H as (names & Hnames & Hlen & Hcount).
  assert (names ≠ []) as Hne by (intros ->; simpl in Hlen; lia).
  rewrite (strict_order_unfold _ _ _ _ _ (names ++ names)).
  - rewrite join_app by done. rewrite decide_True; [done|].
    pose proof (str_count_twice (join hack_delim names) hack_delim
                  (join hack_delim sequence) Hd).
    lia.
  - by apply names_of_app.
  - rewrite length_app. lia.
Qed.

Lemma strict_order_twice_witness :
  check_sequence_strict_order (trace_twice (trace_of [act_A; act_B; act_C]))
    [act_A; act_B] 2 hack_delim_default concept_name = Ok 2.
Proof.
  apply (strict_order_twice (trace_of [act_A; act_B; act_C]) [act_A; act_B]
           hack_delim_default concept_name).
  - discriminate.
  - discriminate.
  - vm_compute. reflexivity.
Defined.

(** *** The scan of the joined string follows the scan of the names *)

Section joined.
Local Open Scope nat_scope.
Context (d : char).

Lemma join_first t rest : join [d] (t :: rest) = t ++ join_rest d rest.
Proof. destruct rest; simpl; [by rewrite app_nil_r | done]. Qed.

Lemma join_rest_cases rest :
  join_rest d rest = [] ∨ ∃ Y, join_rest d rest = d :: Y.
Proof. destruct rest; [by left | right; by eexists]. Qed.

Lemma join_app_rest l1 l2 :
  l1 ≠ [] → join [d] (l1 ++ l2) = join [d] l1 ++ join_rest d l2.
Proof.
  intros H1. destruct l2 as [|y l2].
  - by rewrite !app_nil_r.
  - by rewrite join_app.
Qed.

(** Two strings cut at their first delimiter agree on both parts. *)
Lemma split_at_delim (p t W Y : str) :
  d ∉ p → d ∉ t → (Y = [] ∨ ∃ Y', Y = d :: Y') →
  p ++ d :: W = t ++ Y → p = t ∧ Y = d :: W.
Proof.
  revert t. induction p as [|c p IH]; intros t Hp Ht HY Heq.
  - destruct t as [|c' t]; [done|]. simpl in Heq.
    inversion Heq; subst. destruct Ht. left.
  - destruct t as [|c' t]; simpl in Heq.
    + destruct HY as [->|[Y' ->]]; [done|].
      inversion Heq; subst. destruct Hp. left.
    + inversion Heq; subst.
      destruct (IH t) as [-> ->]; try done.
      * intros ?; apply Hp; by right.
      * intros ?; apply Ht; by right.
Qed.

Lemma prefix_delim_free (p t Z Y : str) :
  d ∉ p → (Y = [] ∨ ∃ Y', Y = d :: Y') →
  p ++ Z = t ++ Y → p `prefix_of` t.
Proof.
  revert t. induction p as [|c p IH]; intros t Hp HY Heq.
  - apply prefix_nil.
  - destruct t as [|c' t]; simpl in Heq.
    + destruct HY as [->|[Y' ->]]; [done|].
      inversion Heq; subst. destruct Hp. left.
    + inversion Heq; subst. apply prefix_cons, IH; [|done..].
      intros ?; apply Hp; by right.
Qed.

(** When the joined pattern starts the joined names, the pattern starts
    the names, except that its last name may stop inside a name. *)
Lemma join_prefix_aligned (pattern : list str) :
  pattern ≠ [] → Forall (λ p, d ∉ p) pattern →
  ∀ t rest, d ∉ t →  Forall (λ n, d ∉ n) rest →
  join [d] pattern `prefix_of` t ++ join_rest d rest →
  ∃ ps pl tl rest',
    pattern = ps ++ [pl] ∧ t :: rest = ps ++ tl :: rest'
    ∧ pl `prefix_of` tl.
Proof.
  induction pattern as [|p pattern IH]; [done|].
  intros _ Hpat t rest Ht Hrest [Z HZ].
  apply Forall_cons in Hpat as [Hp Hpat].
  destruct pattern as [|p2 pattern].
  - exists [], p, t, rest. repeat split. simpl in HZ.
    eapply prefix_delim_free; [done|apply join_rest_cases|done].
  - rewrite join_cons in HZ.
    remember (join [d] (p2 :: pattern)) as J2 eqn:HJ2.
    rewrite <- app_assoc in HZ. simpl in HZ. symmetry in HZ.
    apply split_at_delim in HZ as [-> HY];
      [|done|done|apply join_rest_cases].
    destruct rest as [|t1 rest1]; [done|].
    apply Forall_cons in Hrest as [Ht1 Hrest1].
    cbn [join_rest] in HY. injection HY as HY.
    destruct (IH ltac:(done) Hpat t1 rest1 Ht1 Hrest1)
      as (ps & pl & tl & rest' & Hps & Hnames & Hpl).
    { exists Z. by rewrite <- join_first. }
    exists (t :: ps), pl, tl, rest'.
    split; [by rewrite Hps|]. split; [|done]. simpl. by f_equal.
Qed.

Context (pattern : list str).
Hypothesis pattern_nonempty : pattern ≠ [].
Hypothesis pattern_clean : Forall (λ p, p ≠ [] ∧ d ∉ p) pattern.

Lemma pattern_delim_free : Forall (λ p, d ∉ p) pattern.
Proof. eapply Forall_impl; [exact pattern_clean|]. by intros p [_ ?]. Qed.

Lemma joined_pattern_head :
  ∃ c Q, join [d] pattern = c :: Q ∧ c ≠ d.
Proof.
  destruct pattern as [|p ps]; [done|].
  pose proof pattern_clean as [[Hne Hd] _]%Forall_cons.
  destruct p as [|c p]; [done|]. rewrite join_first.
  exists c, (p ++ join_rest d ps). split; [done|].
  intros ->. apply Hd. left.
Qed.

Lemma joined_pattern_length : 0 < length (join [d] pattern).
Proof. destruct joined_pattern_head as (c & Q & -> & _). simpl. lia. Qed.

Local Abbreviation Q := (join [d] pattern).
Local Abbreviation scanS := (scan_windows (equal_to Q) (length Q) 0).
Local Abbreviation scanL :=
  (scan_windows (equal_to pattern) (length pattern) 0).

Lemma take_prefix {A} `{EqDecision A} (q s : list A) :
  equal_to q (take (length q) s) = true ↔ q `prefix_of` s.
Proof.
  rewrite equal_to_true. split.
  - intros H. exists (drop (length q) s).
    by rewrite <- H at 1; rewrite take_drop.
  - intros [k ->]. apply take_app_length.
Qed.

Lemma scanS_hit X : scanS (Q ++ X) = S (scanS X).
Proof.
  destruct joined_pattern_head as (c & Q' & HQ & _).
  assert (Q ++ X = c :: (Q' ++ X)) as HX by by rewrite HQ.
  rewrite HX at 1. rewrite scan_windows_cons by apply joined_pattern_length.
  rewrite <- HX. rewrite (proj2 (take_prefix _ _)) by by exists X.
  by rewrite drop_app_length.
Qed.

Lemma scanS_delim X : scanS (d :: X) = scanS X.
Proof.
  rewrite scan_windows_cons by apply joined_pattern_length.
  destruct (equal_to Q (take (length Q) (d :: X))) eqn:Heq; [|done].
  apply take_prefix in Heq as [k Hk].
  destruct joined_pattern_head as (c & Q' & HQ & Hc).
  rewrite HQ in Hk. simpl in Hk. congruence.
Qed.

Lemma scanS_join_rest rest : scanS (join_rest d rest) = scanS (join [d] rest).
Proof. destruct rest; [done|]. apply scanS_delim. Qed.

Lemma scanS_no_hit u Y :
  (∀ u1 u2, u = u1 ++ u2 → u2 ≠ [] → ¬ Q `prefix_of` u2 ++ Y) →
  scanS (u ++ Y) = scanS Y.
Proof.
  induction u as [|c u IH]; intros Hno; [done|].
  rewrite <- app_comm_cons.
  rewrite scan_windows_cons by apply joined_pattern_length.
  destruct (equal_to Q (take (length Q) (c :: u ++ Y))) eqn:Heq.
  - apply take_prefix in Heq. destruct (Hno [] (c :: u)); done.
  - apply IH. intros u1 u2 -> Hu2. by apply (Hno (c :: u1) u2).
Qed.

Context (names : list str).
Hypothesis names_clean : Forall (λ n, d ∉ n) names.
Hypothesis names_whole :
  ∀ t p, t ∈ names → p ∈ pattern → infix p t → p = t.

Lemma prefix_infix {A} (p t : list A) : p `prefix_of` t → infix p t.
Proof. intros [k ->]. by exists [], k. Qed.

(** An occurrence of the joined pattern that starts inside the first of
    the remaining names is an occurrence of the pattern in the names. *)
Lemma joined_hit_is_run t rest v u :
  (∀ x, x ∈ t :: rest → x ∈ names) →
  t = v ++ u → u ≠ [] →
  Q `prefix_of` u ++ join_rest d rest →
  take (length pattern) (t :: rest) = pattern.
Proof.
  intros Hsub Ht Hu Hpre.
  assert (d ∉ t) as Hdt.
  { eapply (proj1 (Forall_forall _ _) names_clean), Hsub. left. }
  assert (Forall (λ n, d ∉ n) rest) as Hdrest.
  { apply Forall_forall. intros x Hx.
    eapply (proj1 (Forall_forall _ _) names_clean), Hsub. by right. }
  assert (d ∉ u) as Hdu.
  { intros Hin. apply Hdt. rewrite Ht. apply elem_of_app. by right. }
  destruct (join_prefix_aligned pattern pattern_nonempty pattern_delim_free
              u rest Hdu Hdrest Hpre)
    as (ps & pl & tl & rest' & Hps & Hnames & Hpl).
  assert (pl ∈ pattern) as Hplin.
  { rewrite Hps. apply elem_of_app. right. left. }
  destruct ps as [|p1 ps1]; simpl in Hnames;
    injection Hnames as Hhead Hrest.
  - destruct Hpl as [k Hk].
    assert (pl = t) as ->.
    { apply names_whole; [apply Hsub; left|done|].
      exists v, k. by rewrite Ht, Hhead, Hk. }
    rewrite Hps. reflexivity.
  - assert (p1 = t) as ->.
    { apply names_whole; [apply Hsub; left| |].
      - rewrite Hps. left.
      - exists v, []. by rewrite app_nil_r, <- Hhead. }
    assert (pl = tl) as ->.
    { apply names_whole; [|done|by apply prefix_infix].
      apply Hsub. right. rewrite Hrest. apply elem_of_app. right. left. }
    rewrite Hrest, Hps.
    change (t :: ps1 ++ tl :: rest') with ((t :: ps1) ++ [tl] ++ rest').
    rewrite app_assoc. apply take_app_length.
Qed.

(** The scans agree on every tail of the names. *)
Lemma scan_joined rest :
  (∀ x, x ∈ rest → x ∈ names) →
  scanS (join [d] rest) = scanL rest.
Proof.
  remember (length rest) as n eqn:Hn. revert rest Hn.
  induction n as [n IH] using lt_wf_ind. intros rest -> Hsub.
  destruct rest as [|t rest]; [done|].
  assert (0 < length pattern) as Hm.
  { destruct pattern; [done | simpl; lia]. }
  rewrite (scan_windows_cons _ _ Hm).
  destruct (equal_to pattern (take (length pattern) (t :: rest))) eqn:Hhd.
  - apply equal_to_true in Hhd.
    rewrite <- (take_drop (length pattern) (t :: rest)) at 1.
    rewrite Hhd, join_app_rest, scanS_hit, scanS_join_rest by done.
    f_equal.
    apply (IH (length (drop (length pattern) (t :: rest)))); [|done|].
    + rewrite length_drop. simpl. lia.
    + intros x Hx. apply Hsub.
      rewrite <- (take_drop (length pattern) (t :: rest)).
      apply elem_of_app. by right.
  - rewrite join_first, scanS_no_hit, scanS_join_rest.
    + apply (IH (length rest)); [simpl; lia|done|].
      intros x Hx. apply Hsub. by right.
    + intros u1 u2 Ht Hu2 Hpre.
      pose proof (joined_hit_is_run t rest u1 u2 Hsub Ht Hu2 Hpre) as Hrun.
      apply bool_decide_eq_false in Hhd. exact (Hhd Hrun).
Qed.
End joined.

(** Runs of the pattern in the names, counted without overlap, against
    selections of runs that do not overlap. *)
Lemma scan_runs_ge (pattern names : list str) (k : nat) :
  pattern ≠ [] →
  (k ≤ scan_windows (equal_to pattern) (length pattern) 0 names)%nat
  ↔ ∃ ps, (k ≤ length ps)%nat ∧ Gapped (length pattern) ps
          ∧ Forall (λ p, window (length pattern) names p = pattern) ps.
Proof.
  intros Hne.
  assert (0 < length pattern)%nat as Hm.
  { destruct pattern; [done | simpl; lia]. }
  split.
  - intros Hk.
    destruct (scan_windows_achieved (equal_to pattern) _ Hm names)
      as (ps & Hg & Hacc & Hlen).
    exists ps. split; [lia|]. split; [done|].
    eapply Forall_impl; [exact Hacc|]. intros p [HP _].
    by apply equal_to_true in HP.
  - intros (ps & Hk & Hg & Hruns).
    etrans; [exact Hk|].
    apply scan_windows_optimal; [done..|].
    eapply Forall_impl; [exact Hruns|]. intros p Hp. split.
    + by apply equal_to_true.
    + pose proof (window_length_le _ _ _ _ Hm Hp eq_refl). lia.
Qed.

(** [C2], as stated, fails: the two overlapping runs of [A, A] in
    [A, A, A] are counted once. *)
Lemma strict_order_overlapping_counterexample :
  ¬ (check_sequence_strict_order (trace_of [act_A; act_A; act_A])
       [act_A; act_A] 2 hack_delim_default concept_name = Ok 2
     ↔ (2 ≤ overlapping_count [act_A; act_A] [act_A; act_A; act_A])%nat).
Proof.
  intros [_ H].
  assert (2 ≤ overlapping_count [act_A; act_A] [act_A; act_A; act_A])%nat
    as Hcount by (vm_compute; lia).
  specialize (H Hcount). vm_compute in H. discriminate.
Qed.

(** The substring search also matches across the boundaries of names:
    here the pattern name [A] is the end of the trace name [XA]. The
    amended statement below leaves such inputs out. *)
Example strict_order_crosses_name_boundary :
  check_sequence_strict_order (trace_of [act_XA; act_B]) [act_A; act_B] 1
    hack_delim_default concept_name = Ok 2
  ∧ overlapping_count [act_A; act_B] [act_XA; act_B] = 0%nat.
Proof. split; vm_compute; reflexivity. Qed.

(** [C2], amended. For a trace of at least [count] events and a non-empty
    pattern, where no name holds the delimiter, no name of the pattern is
    empty, and no name of the pattern is a proper piece of a name of the
    trace: [check_sequence_strict_order] returns 2 exactly when the
    pattern occurs as a contiguous run of the same names in the same order
    at [count] or more positions whose runs do not overlap, and 0
    otherwise. *)
Theorem strict_order_nonoverlapping (trace : Trace)
    (names sequence : list str) (count : Z) (d : char) (name : str) :
  event_names name trace = Ok names →
  sequence ≠ [] →
  count ≤ Z.of_nat (length names) →
  Forall (λ n, d ∉ n) names →
  Forall (λ p, p ≠ [] ∧ d ∉ p) sequence →
  (∀ t p, t ∈ names → p ∈ sequence → infix p t → p = t) →
  (check_sequence_strict_order trace sequence count [d] name = Ok 2
   ↔ ∃ ps, count ≤ Z.of_nat (length ps)
           ∧ Gapped (length sequence) ps
           ∧ Forall (λ p, window (length sequence) names p = sequence) ps)
  ∧ (check_sequence_strict_order trace sequence count [d] name = Ok 2
     ∨ check_sequence_strict_order trace sequence count [d] name = Ok 0).
Proof.
  intros Hnames Hne Hlen Hclean Hpat Hwhole.
  rewrite (strict_order_unfold _ _ _ _ _ names Hnames) by lia.
  destruct (joined_pattern_head d sequence Hne Hpat) as (c & Q' & HQ & _).
  assert (str_count (join [d] names) (join [d] sequence)
          = scan_windows (equal_to sequence) (length sequence) 0 names)
    as ->.
  { rewrite <- (scan_joined d sequence Hne Hpat names Hclean Hwhole) by done.
    unfold str_count. by rewrite HQ. }
  split; [|case_decide; auto].
  split.
  - case_decide as Hc; [|discriminate]. intros _.
    destruct (proj1 (scan_runs_ge sequence names
                       (scan_windows (equal_to sequence) (length sequence)
                          0 names) Hne))
      as (ps & Hk & Hrest); [done|].
    exists ps. split; [lia|done].
  - intros (ps & Hk & Hrest).
    rewrite decide_True; [done|].
    assert (length ps
            ≤ scan_windows (equal_to sequence) (length sequence) 0 names)%nat.
    { apply scan_runs_ge; [done|]. by exists ps. }
    lia.
Qed.

Lemma strict_order_nonoverlapping_witness :
  (check_sequence_strict_order (trace_of [act_A; act_A; act_A])
     [act_A; act_A] 2 hack_delim_default concept_name = Ok 2
   ↔ ∃ ps, 2 ≤ Z.of_nat (length ps)
           ∧ Gapped 2 ps
           ∧ Forall (λ p, window 2 [act_A; act_A; act_A] p
                          = [act_A; act_A]) ps)
  ∧ (check_sequence_strict_order (trace_of [act_A; act_A; act_A])
       [act_A; act_A] 2 hack_delim_default concept_name = Ok 2
     ∨ check_sequence_strict_order (trace_of [act_A; act_A; act_A])
         [act_A; act_A] 2 hack_delim_default concept_name = Ok 0).
Proof.
  apply (strict_order_nonoverlapping (trace_of [act_A; act_A; act_A])
           [act_A; act_A; act_A] [act_A; act_A] 2 9247%N concept_name).
  - apply names_of_trace_of.
  - discriminate.
  - simpl. lia.
  - apply (bool_decide_unpack _). vm_compute. exact I.
  - apply (bool_decide_unpack _). vm_compute. exact I.
  - intros t p Ht Hp _.
    assert (t = act_A) as ->.
    { repeat (apply elem_of_cons in Ht as [->|Ht]; [done|]).
      by apply elem_of_nil in Ht. }
    repeat (apply elem_of_cons in Hp as [->|Hp]; [done|]).
    by apply elem_of_nil in Hp.
Defined.

(** ** Permutation matching *)

Lemma selections_Permutation {A} (l : list A) x r :
  (x, r) ∈ selections l → l ≡ₚ x :: r.
Proof.
  revert x r. induction l as [|y l IH]; intros x r Hin; simpl in Hin.
  - by apply elem_of_nil in Hin.
  - apply elem_of_cons in Hin as [[= -> ->]|Hin]; [done|].
    apply list_elem_of_fmap in Hin as ([x' r'] & [= -> ->] & Hin).
    simpl. rewrite (IH _ _ Hin). apply Permutation_swap.
Qed.

Lemma selections_elem_of {A} (l : list A) x :
  x ∈ l → ∃ r, (x, r) ∈ selections l.
Proof.
  induction l as [|y l IH]; intros Hin; [by apply elem_of_nil in Hin|].
  apply elem_of_cons in Hin as [->|Hin].
  - exists l. left.
  - destruct (IH Hin) as [r Hr]. exists (y :: r). simpl. right.
    apply list_elem_of_fmap. by exists (x, r).
Qed.

Lemma permutations_len_spec {A} (n : nat) (l p : list A) :
  length l = n → (p ∈ permutations_len n l ↔ p ≡ₚ l).
Proof.
  revert l p. induction n as [|n IH]; intros l p Hlen; simpl.
  - apply nil_length_inv in Hlen as ->. rewrite list_elem_of_singleton.
    split; [by intros -> | by intros ->%Permutation_nil_r].
  - rewrite list_elem_of_bind. split.
    + intros ([x r] & Hp & Hsel). simpl in Hp.
      apply list_elem_of_fmap in Hp as (p' & -> & Hp').
      pose proof (selections_Permutation _ _ _ Hsel) as Hl.
      rewrite Hl. apply Permutation_skip. apply IH; [|done].
      apply Permutation_length in Hl. simpl in Hl. lia.
    + intros Hp. destruct p as [|x p'].
      { apply Permutation_length in Hp. simpl in Hp. lia. }
      assert (x ∈ l) as Hx by (rewrite <- Hp; left).
      destruct (selections_elem_of _ _ Hx) as [r Hsel].
      pose proof (selections_Permutation _ _ _ Hsel) as Hl.
      exists (x, r). split; [|done]. simpl.
      apply list_elem_of_fmap. exists p'. split; [done|].
      apply IH.
      * apply Permutation_length in Hl. simpl in Hl. lia.
      * rewrite Hl in Hp. by apply Permutation_cons_inv in Hp.
Qed.

Lemma itertools_permutations_spec {A} (l p : list A) :
  p ∈ itertools_permutations l ↔ p ≡ₚ l.
Proof. by apply permutations_len_spec. Qed.

Lemma elem_of_window_matches search_list m perm_seq i :
  i ∈ window_matches search_list m perm_seq
  ↔ (i < length search_list - m)%nat ∧ window m search_list i = perm_seq.
Proof.
  unfold window_matches. rewrite list_elem_of_filter, elem_of_seq.
  unfold window. split; [intros [? [_ ?]]|intros [? ?]; split]; auto with lia.
Qed.

Lemma perm_loop_spec search_list m perms tested found i :
  i ∈ (foldl (perm_body search_list m) (tested, found) perms).2
  ↔ i ∈ found
    ∨ ∃ q, q ∈ perms ∧ (q ∉ tested) ∧ (i ∈ window_matches search_list m q).
Proof.
  revert tested found. induction perms as [|q0 perms IH]; intros tested found.
  - simpl. split; [by left|]. intros [?|(q & Hq & _)]; [done|].
    by apply elem_of_nil in Hq.
  - cbn [foldl]. unfold perm_body at 2. cbn [fst snd].
    destruct (decide (q0 ∈ tested)) as [Hin|Hnin]; rewrite IH.
    + split; (intros [?|(q & Hq & Hnt & Hi)]; [by left|right]).
      * exists q. split; [by right|done].
      * exists q. split; [|done].
        apply elem_of_cons in Hq as [->|Hq]; done.
    + rewrite elem_of_app. split.
      * intros [[?|?]|(q & Hq & Hnt & Hi)]; [by left|right..].
        -- exists q0. split; [left|done].
        -- exists q. split; [by right|]. split; [|done].
           intros Hq'. apply Hnt, elem_of_union. by right.
      * intros [?|(q & Hq & Hnt & Hi)]; [by left; left|].
        destruct (decide (q = q0)) as [->|Hne]; [by left; right|].
        right. exists q. split; [|split; [|done]].
        -- apply elem_of_cons in Hq as [->|Hq]; done.
        -- intros [Hq'%elem_of_singleton|Hq']%elem_of_union; done.
Qed.

(** The indices found: the starts of the windows that hold the names of
    the pattern in some order, except that the last start considered is
    [len(search_list) - len(sequence) - 1]. *)
Lemma elem_of_found_indices search_list sequence i :
  i ∈ found_indices search_list sequence
  ↔ (i < length search_list - length sequence)%nat
    ∧ window (length sequence) search_list i ≡ₚ sequence.
Proof.
  unfold found_indices. rewrite perm_loop_spec. split.
  - intros [Hi|(q & Hq & _ & Hi)]; [by apply elem_of_nil in Hi|].
    apply elem_of_window_matches in Hi as [Hlt ->].
    split; [done|]. by apply itertools_permutations_spec.
  - intros [Hlt Hperm]. right.
    exists (window (length sequence) search_list i).
    split; [by apply itertools_permutations_spec|].
    split; [set_solver|]. by apply elem_of_window_matches.
Qed.

(** [C1] The window of [A, B] that ends the trace [A, B] holds the names
    of the pattern [A, B], and it is the last start position that the
    claim asks to be considered; the code finds no index, and returns 0. *)
Theorem nonstrict_order_misses_last_window :
  window 2 [act_A; act_B] (length [act_A; act_B] - 2) ≡ₚ [act_A; act_B]
  ∧ found_indices [act_A; act_B] [act_A; act_B] = []
  ∧ check_sequence_nonstrict_order (trace_of [act_A; act_B])
      [act_A; act_B] 1 hack_delim_default concept_name = Ok 0
  ∧ check_sequence_strict_order (trace_of [act_A; act_B])
      [act_A; act_B] 1 hack_delim_default concept_name = Ok 2.
Proof. repeat split; vm_compute; reflexivity. Qed.

(** ** The filter of overlapping windows *)

Lemma elem_of_sorted_set l x : x ∈ sorted_set l ↔ x ∈ l.
Proof.
  unfold sorted_set. rewrite merge_sort_Permutation, elem_of_elements.
  apply elem_of_list_to_set.
Qed.

Lemma filter_loop_select m l next_min_index filtered :
  (foldl (filter_body m) (next_min_index, filtered) l).2
  = filtered ++ select m next_min_index l.
Proof.
  revert next_min_index filtered.
  induction l as [|x l IH]; intros nmi acc; simpl.
  - by rewrite app_nil_r.
  - unfold filter_body at 2. cbn [fst snd].
    case_decide; rewrite IH; [|done]. by rewrite <- app_assoc.
Qed.

Lemma filter_indices_select m first rest :
  filter_indices m (first :: rest)
  = Ok (first :: select m (first + m) rest).
Proof.
  unfold filter_indices. cbn [first_item]. rewrite bind_Ok.
  cbn [drop]. by rewrite filter_loop_select.
Qed.

Lemma select_bound m next_min_index l :
  Forall (λ i, next_min_index ≤ i)%nat (select m next_min_index l).
Proof.
  revert next_min_index. induction l as [|x l IH]; intros nmi; simpl.
  - constructor.
  - case_decide; [|apply IH]. constructor; [done|].
    eapply Forall_impl; [apply IH|]. simpl. intros; lia.
Qed.

Lemma select_Gapped m next_min_index l : Gapped m (select m next_min_index l).
Proof.
  revert next_min_index. induction l as [|x l IH]; intros nmi; simpl.
  - constructor.
  - case_decide; [|apply IH]. constructor; [apply IH|apply select_bound].
Qed.

Lemma select_subseteq m next_min_index l i :
  i ∈ select m next_min_index l → i ∈ l.
Proof.
  revert next_min_index. induction l as [|x l IH]; intros nmi; simpl.
  - done.
  - case_decide.
    + intros [->|Hi]%elem_of_cons; [left|right; by eapply IH].
    + intros Hi. right. by eapply IH.
Qed.

Lemma Gapped_length_between m lo n ps :
  (0 < m)%nat → Gapped m ps → Forall (λ i, lo ≤ i < n)%nat ps →
  (length ps ≤ n - lo)%nat.
Proof.
  intros Hm Hg. revert lo.
  induction Hg as [|p ps Hg IH Hall]; intros lo Hn; [simpl; lia|].
  apply Forall_cons in Hn as [Hp Hn]. simpl.
  assert (length ps ≤ n - S p)%nat; [|lia].
  apply IH. rewrite Forall_forall in *. intros q Hq.
  specialize (Hall q Hq). specialize (Hn q Hq). lia.
Qed.

Lemma Gapped_length_bound m n ps :
  (0 < m)%nat → Gapped m ps → Forall (λ i, i < n)%nat ps →
  (length ps ≤ n)%nat.
Proof.
  intros Hm Hg Hn.
  pose proof (Gapped_length_between m 0 n ps Hm Hg) as H.
  rewrite Nat.sub_0_r in H. apply H.
  eapply Forall_impl; [exact Hn|]. simpl. intros; lia.
Qed.

(** [C5] For a non-empty pattern of length [m] and [count >= 1]: when
    fewer than [count] indices are found the filter is not run and the
    verdict is 0; otherwise the filter returns the selected windows, any
    two of them are at least [m] apart, their number is at most the number
    of windows that the earliest-first selection over all matching windows
    of the trace selects, and the verdict compares their number with
    [count]. *)
Theorem nonstrict_order_selection (trace : Trace) (names sequence : list str)
    (count : Z) (hack_delim name : str) :
  event_names name trace = Ok names →
  sequence ≠ [] →
  1 ≤ count →
  (Z.of_nat (length (found_indices names sequence)) < count →
   check_sequence_nonstrict_order trace sequence count hack_delim name
   = Ok 0)
  ∧ (count ≤ Z.of_nat (length (found_indices names sequence)) →
     ∃ selected,
       filter_indices (length sequence)
         (sorted_set (found_indices names sequence)) = Ok selected
       ∧ Gapped (length sequence) selected
       ∧ (length selected ≤ greedy_windows sequence names)%nat
       ∧ check_sequence_nonstrict_order trace sequence count hack_delim name
         = Ok (if decide (count ≤ Z.of_nat (length selected)) then 2 else 0)).
Proof.
  intros Hnames Hne Hcount.
  assert (0 < length sequence)%nat as Hm.
  { destruct sequence; [done | simpl; lia]. }
  split.
  - intros Hfew. unfold check_sequence_nonstrict_order.
    case_decide; [done|]. rewrite Hnames, bind_Ok. by rewrite decide_True.
  - intros Hmany.
    destruct (sorted_set (found_indices names sequence))
      as [|first rest] eqn:Hsorted.
    { destruct (found_indices names sequence) as [|i l] eqn:Hfound.
      - simpl in Hmany. lia.
      - assert (i ∈ sorted_set (i :: l)) as Hi by (apply elem_of_sorted_set; left).
        rewrite Hsorted in Hi. by apply elem_of_nil in Hi. }
    rewrite filter_indices_select.
    set (selected := first :: select (length sequence)
                               (first + length sequence) rest).
    assert (Gapped (length sequence) selected) as Hgap.
    { constructor; [apply select_Gapped|apply select_bound]. }
    assert (Forall (λ i, (i < length names - length sequence)%nat
                         ∧ window (length sequence) names i ≡ₚ sequence)
              selected) as Hfound.
    { apply Forall_forall. intros i Hi. apply elem_of_found_indices.
      apply elem_of_sorted_set. rewrite Hsorted.
      apply elem_of_cons in Hi as [->|Hi]; [left|right].
      by eapply select_subseteq. }
    exists selected. split; [done|]. split; [done|]. split.
    + apply scan_windows_optimal; [done..|].
      eapply Forall_impl; [exact Hfound|]. intros i [Hlt Hperm].
      split; [by apply bool_decide_eq_true|lia].
    + unfold check_sequence_nonstrict_order.
      rewrite <- (names_of_length _ _ _ Hnames). case_decide as Hguard.
      * rewrite decide_False; [done|].
        assert (length selected ≤ length names)%nat; [|lia].
        apply (Gapped_length_bound (length sequence)); [done..|].
        eapply Forall_impl; [exact Hfound|]. simpl. intros; lia.
      * rewrite Hnames, bind_Ok.
        rewrite decide_False by lia. rewrite Hsorted.
        rewrite filter_indices_select, bind_Ok. fold selected.
        by destruct (decide (count ≤ Z.of_nat (length selected))).
Qed.

Lemma nonstrict_order_selection_witness :
  ∃ selected,
    filter_indices 2
      (sorted_set (found_indices [act_A; act_B; act_A; act_B; act_C]
                     [act_B; act_A])) = Ok selected
    ∧ Gapped 2 selected
    ∧ (length selected
       ≤ greedy_windows [act_B; act_A]
           [act_A; act_B; act_A; act_B; act_C])%nat
    ∧ check_sequence_nonstrict_order
        (trace_of [act_A; act_B; act_A; act_B; act_C]) [act_B; act_A] 2
        hack_delim_default concept_name
      = Ok (if decide (2 ≤ Z.of_nat (length selected)) then 2 else 0).
Proof.
  apply (nonstrict_order_selection
           (trace_of [act_A; act_B; act_A; act_B; act_C])
           [act_A; act_B; act_A; act_B; act_C] [act_B; act_A] 2
           hack_delim_default concept_name).
  - apply names_of_trace_of.
  - discriminate.
  - lia.
  - vm_compute. discriminate.
Defined.

(** ** Interleaved matching *)

(** Either loop over the events is the loop of its step over the names of
    the pattern's activities. *)
Lemma interleaved_loop_names
    (step : list str → nat * list str → str → result (nat * list str))
    (body : list str → gset str → nat * list str → event
            → result (nat * list str)) sequence evs names st :
  (∀ e n st, e !! concept_name = Some n →
     body sequence (list_to_set sequence) st e
     = if decide (n ∈ sequence) then step sequence st n else Ok st) →
  names_of concept_name evs = Ok names →
  for_each (body sequence (list_to_set sequence)) evs st
  = for_each (step sequence) (filter (λ n, n ∈ sequence) names) st.
Proof.
  intros Hbody. revert names st.
  induction evs as [|e evs IH]; intros names st Hnames.
  - by inversion Hnames.
  - apply names_of_cons_inv in Hnames as (n & ns & -> & He & Hns).
    cbn [for_each]. rewrite (Hbody _ _ _ He), filter_cons.
    destruct (decide (n ∈ sequence)).
    + cbn [for_each]. destruct (step sequence st n); [|done].
      rewrite !bind_Ok. by apply IH.
    + rewrite bind_Ok. by apply IH.
Qed.

Lemma strict_body_step sequence e n st :
  e !! concept_name = Some n →
  strict_interleaved_body sequence (list_to_set sequence) st e
  = if decide (n ∈ sequence) then strict_interleaved_step sequence st n
    else Ok st.
Proof.
  intros He. unfold strict_interleaved_body, getitem. rewrite He, bind_Ok.
  destruct (decide (n ∈ sequence)) as [Hin|Hnin].
  - rewrite decide_False; [done|]. intros Hn. apply Hn.
    by apply elem_of_list_to_set.
  - rewrite decide_True; [done|]. by rewrite elem_of_list_to_set.
Qed.

Lemma nonstrict_body_step sequence e n st :
  e !! concept_name = Some n →
  nonstrict_interleaved_body sequence (list_to_set sequence) st e
  = if decide (n ∈ sequence) then nonstrict_interleaved_step sequence st n
    else Ok st.
Proof.
  intros He. unfold nonstrict_interleaved_body, getitem. rewrite He, bind_Ok.
  destruct (decide (n ∈ sequence)) as [Hin|Hnin].
  - rewrite decide_False; [done|]. intros Hn. apply Hn.
    by apply elem_of_list_to_set.
  - rewrite decide_True; [done|]. by rewrite elem_of_list_to_set.
Qed.

(** On the name the working copy starts with, both steps drop it, and
    start a new copy when nothing is left. *)
Lemma strict_step_head sequence c x l :
  strict_interleaved_step sequence (c, x :: l) x
  = Ok (if decide (l = []) then (S c, sequence) else (c, l)).
Proof.
  unfold strict_interleaved_step. cbn [fst snd first_item]. rewrite bind_Ok.
  destruct (decide (x = x)); [|done]. cbn [drop].
  destruct l; [done|]. by rewrite decide_False.
Qed.

Lemma nonstrict_step_head sequence c x l :
  nonstrict_interleaved_step sequence (c, x :: l) x
  = Ok (if decide (l = []) then (S c, sequence) else (c, l)).
Proof.
  unfold nonstrict_interleaved_step. cbn [fst snd list_remove].
  destruct (decide (x = x)); [|done].
  destruct l; [done|]. by rewrite decide_False.
Qed.

Section in_order.
Context (sequence : list str).
Context (step : nat * list str → str → result (nat * list str)).
Hypothesis step_head : ∀ c x l,
  step (c, x :: l) x = Ok (if decide (l = []) then (S c, sequence) else (c, l)).

(** The names of a working copy, in order, complete one occurrence. *)
Lemma in_order_complete copy_seq names c :
  copy_seq ≠ [] →
  for_each step (copy_seq ++ names) (c, copy_seq)
  = for_each step names (S c, sequence).
Proof.
  induction copy_seq as [|x l IH]; intros Hne; [done|].
  rewrite <- app_comm_cons. cbn [for_each]. rewrite step_head, bind_Ok.
  destruct l as [|y l]; [done|].
  rewrite decide_False by done. by apply IH.
Qed.

(** The names of a proper start of the working copy leave its rest. *)
Lemma in_order_partial pre rem c :
  rem ≠ [] → for_each step pre (c, pre ++ rem) = Ok (c, rem).
Proof.
  intros Hrem. induction pre as [|x l IH]; [done|].
  rewrite <- app_comm_cons. cbn [for_each]. rewrite step_head, bind_Ok.
  rewrite decide_False; [done|]. by destruct l.
Qed.

Lemma in_order_repeated k pre rem c :
  sequence = pre ++ rem → rem ≠ [] →
  for_each step (mjoin (replicate k sequence) ++ pre) (c, sequence)
  = Ok ((c + k)%nat, rem).
Proof.
  intros Hseq Hrem. revert c. induction k as [|k IH]; intros c.
  - simpl. rewrite Nat.add_0_r.
    replace (c, sequence) with (c, pre ++ rem) by by rewrite Hseq.
    by apply in_order_partial.
  - cbn [replicate mjoin list_join]. rewrite <- app_assoc.
    rewrite in_order_complete.
    + rewrite IH. do 2 f_equal. lia.
    + rewrite Hseq. by destruct pre.
Qed.
End in_order.

(** [C6] For a non-empty pattern and a trace in which the events of the
    pattern's activities occur, in trace order, as [k] repetitions of the
    pattern followed by a proper start of it, both interleaved matchers
    return the same verdict for every [count]: 2 when [count] is at most
    [k], else 0. *)
Theorem interleaved_agree (trace : Trace) (names sequence pre : list str)
    (count : Z) (k : nat) :
  event_names concept_name trace = Ok names →
  sequence ≠ [] →
  filter (λ n, n ∈ sequence) names = mjoin (replicate k sequence) ++ pre →
  pre `prefix_of` sequence →
  pre ≠ sequence →
  check_sequence_nonstrict_order_interleaved trace sequence count
  = check_sequence_strict_order_interleaved trace sequence count
  ∧ check_sequence_strict_order_interleaved trace sequence count
    = Ok (if decide (count ≤ Z.of_nat k) then 2 else 0).
Proof.
  intros Hnames _ Hfilter [rem Hseq] Hproper.
  assert (rem ≠ []) as Hrem.
  { intros ->. rewrite app_nil_r in Hseq. congruence. }
  assert (check_sequence_strict_order_interleaved trace sequence count
          = Ok (if decide (count ≤ Z.of_nat k) then 2 else 0)) as Hs.
  { unfold check_sequence_strict_order_interleaved.
    rewrite (interleaved_loop_names strict_interleaved_step
               strict_interleaved_body _ _ names)
      by (done || apply strict_body_step).
    rewrite Hfilter, (in_order_repeated sequence _
                        (strict_step_head sequence) k pre rem) by done.
    rewrite bind_Ok. cbn [fst]. rewrite Nat.add_0_l. by case_decide. }
  split; [|done]. rewrite Hs.
  unfold check_sequence_nonstrict_order_interleaved.
  rewrite (interleaved_loop_names nonstrict_interleaved_step
             nonstrict_interleaved_body _ _ names)
    by (done || apply nonstrict_body_step).
  rewrite Hfilter, (in_order_repeated sequence _
                      (nonstrict_step_head sequence) k pre rem) by done.
  rewrite bind_Ok. cbn [fst]. rewrite Nat.add_0_l. by case_decide.
Qed.

Lemma interleaved_agree_witness :
  check_sequence_nonstrict_order_interleaved
    (trace_of [act_A; act_B; act_C; act_A; act_B; act_X; act_A])
    [act_A; act_B] 2
  = check_sequence_strict_order_interleaved
      (trace_of [act_A; act_B; act_C; act_A; act_B; act_X; act_A])
      [act_A; act_B] 2
  ∧ check_sequence_strict_order_interleaved
      (trace_of [act_A; act_B; act_C; act_A; act_B; act_X; act_A])
      [act_A; act_B] 2
    = Ok (if decide (2 ≤ Z.of_nat 2) then 2 else 0).
Proof.
  apply (interleaved_agree
           (trace_of [act_A; act_B; act_C; act_A; act_B; act_X; act_A])
           [act_A; act_B; act_C; act_A; act_B; act_X; act_A]
           [act_A; act_B] [act_A] 2 2).
  - apply names_of_trace_of.
  - discriminate.
  - vm_compute. reflexivity.
  - by exists [act_B].
  - discriminate.
Defined.

(** ** Attribute matching *)

Lemma count_matches_spec test items c :
  count_matches test items c
  = if decide (Forall (λ kv, test kv.1 kv.2 = true) items)
    then Some (c + length items)%nat else None.
Proof.
  revert c. induction items as [|[k v] items IH]; intros c.
  - cbn [count_matches length]. rewrite decide_True by constructor.
    f_equal. lia.
  - cbn [count_matches]. destruct (test k v) eqn:Ht.
    + rewrite IH. destruct (decide (Forall _ items)) as [Hall|Hnall].
      * rewrite decide_True by (by constructor). cbn [length]. f_equal. lia.
      * rewrite decide_False; [done|]. by intros [_ ?]%Forall_cons.
    + rewrite decide_False; [done|]. intros [Hkv _]%Forall_cons.
      simpl in Hkv. congruence.
Qed.

(** Both attribute checks return 2 when every item passes their test,
    else 0. *)
Lemma items_verdict (test : str → str → bool) (d : gmap str str) :
  match count_matches test (map_to_list d) 0 with
  | None => 0
  | Some matched_count => if decide (matched_count = size d) then 2 else 0
  end
  = if decide (∀ k v, d !! k = Some v → test k v = true) then 2 else 0.
Proof.
  rewrite count_matches_spec.
  destruct (decide (Forall _ (map_to_list d))) as [Hall|Hnall].
  - rewrite length_map_to_list, decide_True by done.
    rewrite decide_True; [done|]. intros k v Hkv.
    rewrite Forall_forall in Hall.
    by apply (Hall (k, v)), elem_of_map_to_list.
  - rewrite decide_False; [done|]. intros Hall. apply Hnall.
    apply Forall_forall. intros [k v] Hkv%elem_of_map_to_list.
    by apply Hall.
Qed.

Lemma collect_body_lookup keys acc e k :
  collect_body keys acc e !! k
  = match acc !! k with
    | Some v => Some v
    | None => if decide (k ∈ keys) then py_str <$> e !! k else None
    end.
Proof.
  unfold collect_body. revert acc.
  induction keys as [|k0 keys IH]; intros acc; cbn [foldl].
  - rewrite decide_False by apply not_elem_of_nil. by destruct (acc !! k).
  - rewrite IH. clear IH.
    destruct (decide (k = k0)) as [->|Hne].
    + rewrite (decide_True (P := k0 ∈ k0 :: keys)) by left.
      destruct (e !! k0) as [v|] eqn:He.
      * destruct (decide (acc !! k0 = None)) as [Hacc|Hacc].
        -- by rewrite lookup_insert_eq, Hacc.
        -- by destruct (acc !! k0).
      * destruct (acc !! k0); [done|]. by case_decide.
    + assert (∀ acc' : gmap str str, acc' !! k = acc !! k →
                match acc' !! k with
                | Some v => Some v
                | None => if decide (k ∈ keys) then py_str <$> e !! k
                          else None
                end
                = match acc !! k with
                  | Some v => Some v
                  | None => if decide (k ∈ k0 :: keys)
                            then py_str <$> e !! k else None
                  end) as Hsame.
      { intros acc' ->. destruct (acc !! k); [done|].
        destruct (decide (k ∈ keys)).
        - by rewrite decide_True by by right.
        - rewrite decide_False; [done|].
          intros [?|?]%elem_of_cons; done. }
      apply Hsame. destruct (e !! k0); [|done].
      destruct (decide (acc !! k0 = None)); [|done].
      by apply lookup_insert_ne.
Qed.

Lemma collect_loop_lookup keys evs acc k :
  foldl (collect_body keys) acc evs !! k
  = match acc !! k with
    | Some v => Some v
    | None =>
        if decide (k ∈ keys) then py_str <$> first_carrying k evs else None
    end.
Proof.
  revert acc. induction evs as [|e evs IH]; intros acc; cbn [foldl].
  - destruct (acc !! k); [done|]. by case_decide.
  - rewrite IH, collect_body_lookup. cbn [first_carrying].
    destruct (acc !! k); [done|]. case_decide; [|done].
    by destruct (e !! k).
Qed.

Lemma collect_event_attributes_lookup (trace : Trace) (d : gmap str str)
    (k : str) :
  is_Some (d !! k) →
  collect_event_attributes trace d !! k
  = py_str <$> first_carrying k (events trace).
Proof.
  intros [v Hv]. unfold collect_event_attributes.
  rewrite collect_loop_lookup, lookup_empty, decide_True; [done|].
  apply list_elem_of_fmap. exists (k, v). split; [done|].
  by apply elem_of_map_to_list.
Qed.

(** [C9] [check_trace_event_attributes] records for each requested key
    the value, as a string, of the first event in trace order that carries
    the key, whatever later events hold for it, and returns 2 exactly
    when every requested key was recorded with its expected value, and 0
    otherwise. *)
Theorem event_attributes_first_value (trace : Trace)
    (attribute_value_dict : gmap str str) :
  (∀ k, is_Some (attribute_value_dict !! k) →
     collect_event_attributes trace attribute_value_dict !! k
     = py_str <$> first_carrying k (events trace))
  ∧ (∀ k evs1 evs2 v, is_Some (attribute_value_dict !! k) →
       events trace = evs1 ++ evs2 → first_carrying k evs1 = Some v →
       collect_event_attributes trace attribute_value_dict !! k
       = Some (py_str v))
  ∧ (check_trace_event_attributes trace attribute_value_dict = 2
     ↔ ∀ k v, attribute_value_dict !! k = Some v →
         collect_event_attributes trace attribute_value_dict !! k = Some v)
  ∧ (check_trace_event_attributes trace attribute_value_dict = 2
     ∨ check_trace_event_attributes trace attribute_value_dict = 0).
Proof.
  split; [intros k Hk; by apply collect_event_attributes_lookup|].
  split.
  { intros k evs1 evs2 v Hk Hevs Hfirst.
    rewrite collect_event_attributes_lookup, Hevs by done.
    clear Hevs. induction evs1 as [|e evs1 IH]; [done|].
    simpl in *. destruct (e !! k); [by inversion Hfirst|by apply IH]. }
  unfold check_trace_event_attributes. rewrite items_verdict.
  split; [|case_decide; auto].
  case_decide as Hall; split; try done.
  - intros _ k v Hkv. eapply bool_decide_eq_true_1, Hall, Hkv.
  - intros Hrec. destruct Hall. intros k v Hkv.
    by apply bool_decide_eq_true_2, Hrec.
Qed.

(** ** The empty pattern and the empty rule *)

Lemma interleaved_empty_pattern
    (body : list str → gset str → nat * list str → event
            → result (nat * list str)) evs names st :
  (∀ e n st, e !! concept_name = Some n →
     body [] (list_to_set []) st e = Ok st) →
  names_of concept_name evs = Ok names →
  for_each (body [] (list_to_set [])) evs st = Ok st.
Proof.
  intros Hbody. revert names.
  induction evs as [|e evs IH]; intros names Hnames; [done|].
  apply names_of_cons_inv in Hnames as (n & ns & -> & He & Hns).
  cbn [for_each]. rewrite (Hbody _ _ _ He), bind_Ok. by eapply IH.
Qed.

Lemma join_length_ge delim names :
  delim ≠ [] → (length names ≤ S (length (join delim names)))%nat.
Proof.
  intros Hd. induction names as [|x names IH]; [simpl; lia|].
  destruct names as [|y names]; [simpl; lia|].
  rewrite join_cons, !length_app. destruct delim; [done|].
  cbn [length] in *. lia.
Qed.

Lemma found_indices_empty_pattern names :
  found_indices names [] = seq 0 (length names).
Proof.
  unfold found_indices, itertools_permutations. cbn [length permutations_len].
  cbn [foldl]. unfold perm_body. rewrite decide_False by set_solver.
  cbn [fst snd app]. unfold window_matches. rewrite Nat.sub_0_r.
  induction (seq 0 (length names)) as [|i l IH]; [done|].
  rewrite filter_cons_True by by rewrite take_0. by rewrite IH.
Qed.

Lemma select_keeps_sorted next_min_index l :
  Sorted le l → Forall (λ i, next_min_index ≤ i)%nat l →
  select 0 next_min_index l = l.
Proof.
  intros Hs%Sorted_StronglySorted; [|apply _]. revert next_min_index.
  induction Hs as [|x l Hs IH Hall]; intros nmi Hnmi; [done|].
  apply Forall_cons in Hnmi as [Hx _]. cbn [select].
  rewrite decide_True by done. f_equal. apply IH.
  eapply Forall_impl; [exact Hall|]. simpl. intros; lia.
Qed.

Lemma sorted_set_Sorted l : Sorted le (sorted_set l).
Proof. apply Sorted_merge_sort. apply _. Qed.

Lemma sorted_set_length l : NoDup l → length (sorted_set l) = length l.
Proof.
  intros Hl. unfold sorted_set.
  by rewrite merge_sort_Permutation, elements_list_to_set.
Qed.

Lemma filter_indices_empty_pattern l :
  l ≠ [] → NoDup l →
  ∃ filtered, filter_indices 0 (sorted_set l) = Ok filtered
              ∧ length filtered = length l.
Proof.
  intros Hne Hl. pose proof (sorted_set_Sorted l) as Hs.
  pose proof (sorted_set_length l Hl) as Hlen.
  destruct (sorted_set l) as [|first rest].
  { destruct l; [done | simpl in Hlen; lia]. }
  rewrite filter_indices_select. eexists. split; [done|].
  rewrite select_keeps_sorted, Hlen; [done|by eapply Sorted_inv|].
  apply Sorted_StronglySorted in Hs; [|apply _].
  apply StronglySorted_inv in Hs as [_ Hall].
  eapply Forall_impl; [exact Hall|]. simpl. intros; lia.
Qed.

(** Verdicts of the four sequence matchers on the empty pattern. *)
Lemma empty_pattern (trace : Trace) (names : list str) (count : Z)
    (hack_delim : str) :
  event_names concept_name trace = Ok names →
  1 ≤ count →
  hack_delim ≠ [] →
  check_sequence_strict_order_interleaved trace [] count = Ok 0
  ∧ check_sequence_nonstrict_order_interleaved trace [] count = Ok 0
  ∧ check_sequence_strict_order trace [] count hack_delim concept_name
    = Ok (if decide (count ≤ Z.of_nat (length (events trace))) then 2 else 0)
  ∧ check_sequence_nonstrict_order trace [] count hack_delim concept_name
    = Ok (if decide (count ≤ Z.of_nat (length (events trace))) then 2 else 0).
Proof.
  intros Hnames Hcount Hd.
  pose proof (names_of_length _ _ _ Hnames) as Hlen.
  repeat split.
  - unfold check_sequence_strict_order_interleaved.
    rewrite (interleaved_empty_pattern strict_interleaved_body _ names), bind_Ok;
      [by rewrite decide_False by (simpl; lia)| |done].
    intros e n st He. unfold strict_interleaved_body, getitem.
    rewrite He, bind_Ok. by rewrite decide_True by set_solver.
  - unfold check_sequence_nonstrict_order_interleaved.
    rewrite (interleaved_empty_pattern nonstrict_interleaved_body _ names),
      bind_Ok; [by rewrite decide_False by (simpl; lia)| |done].
    intros e n st He. unfold nonstrict_interleaved_body, getitem.
    rewrite He, bind_Ok. by rewrite decide_True by set_solver.
  - unfold check_sequence_strict_order. case_decide as Hguard.
    { by rewrite decide_False by lia. }
    rewrite Hnames, bind_Ok. cbn [join str_count].
    pose proof (join_length_ge hack_delim names Hd).
    rewrite decide_True by lia. by rewrite decide_True by lia.
  - unfold check_sequence_nonstrict_order. case_decide as Hguard.
    { by rewrite decide_False by lia. }
    rewrite Hnames, bind_Ok, found_indices_empty_pattern.
    change (length (@nil str)) with 0%nat.
    rewrite length_seq, decide_False by lia.
    destruct (filter_indices_empty_pattern (seq 0 (length names)))
      as (filtered & -> & Hfiltered).
    + destruct names; [simpl in *; lia | done].
    + apply NoDup_seq.
    + rewrite bind_Ok, Hfiltered, length_seq.
      rewrite decide_True by lia. by rewrite decide_True by lia.
Qed.

(** [C4], as stated, fails: on the empty pattern no sequence matcher
    raises, and on the empty rule both attribute checks return 2. *)
Lemma empty_configuration_counterexample :
  ¬ fails_fast (check_sequence_strict_order (trace_of [act_A]) [] 1
                  hack_delim_default concept_name)
  ∧ ¬ fails_fast (check_sequence_nonstrict_order (trace_of [act_A]) [] 1
                    hack_delim_default concept_name)
  ∧ ¬ fails_fast (check_sequence_strict_order_interleaved
                    (trace_of [act_A]) [] 1)
  ∧ ¬ fails_fast (check_sequence_nonstrict_order_interleaved
                    (trace_of [act_A]) [] 1)
  ∧ check_trace_attribute (trace_of [act_A]) ∅ = 2
  ∧ check_trace_event_attributes (trace_of [act_A]) ∅ = 2.
Proof.
  repeat split; try (vm_compute; reflexivity);
    intros [e He]; vm_compute in He; discriminate.
Qed.

(** [C4], amended. On a trace whose events carry a name and for
    [count >= 1], no sequence matcher raises on the empty pattern: each
    returns the verdict 0 or 2; and on the empty rule both attribute checks
    return 2. *)
Theorem empty_configuration_verdicts (trace : Trace) (names : list str)
    (count : Z) :
  event_names concept_name trace = Ok names →
  1 ≤ count →
  (∃ v, check_sequence_strict_order trace [] count hack_delim_default
          concept_name = Ok v ∧ (v = 0 ∨ v = 2))
  ∧ (∃ v, check_sequence_nonstrict_order trace [] count hack_delim_default
            concept_name = Ok v ∧ (v = 0 ∨ v = 2))
  ∧ (∃ v, check_sequence_strict_order_interleaved trace [] count = Ok v
          ∧ (v = 0 ∨ v = 2))
  ∧ (∃ v, check_sequence_nonstrict_order_interleaved trace [] count = Ok v
          ∧ (v = 0 ∨ v = 2))
  ∧ check_trace_attribute trace ∅ = 2
  ∧ check_trace_event_attributes trace ∅ = 2.
Proof.
  intros Hnames Hcount.
  destruct (empty_pattern trace names count hack_delim_default Hnames Hcount)
    as (Hsi & Hni & Hs & Hn); [done|].
  split; [|split; [|split; [|split; [|split]]]].
  - eexists. split; [exact Hs|]. case_decide; auto.
  - eexists. split; [exact Hn|]. case_decide; auto.
  - eexists. split; [exact Hsi|]. auto.
  - eexists. split; [exact Hni|]. auto.
  - unfold check_trace_attribute. rewrite items_verdict.
    rewrite decide_True; [done|]. intros k v Hkv. by rewrite lookup_empty in Hkv.
  - unfold check_trace_event_attributes. rewrite items_verdict.
    rewrite decide_True; [done|]. intros k v Hkv. by rewrite lookup_empty in Hkv.
Qed.

Lemma empty_configuration_verdicts_witness :
  (∃ v, check_sequence_strict_order (trace_of [act_A; act_B]) [] 1
          hack_delim_default concept_name = Ok v ∧ (v = 0 ∨ v = 2))
  ∧ (∃ v, check_sequence_nonstrict_order (trace_of [act_A; act_B]) [] 1
            hack_delim_default concept_name = Ok v ∧ (v = 0 ∨ v = 2))
  ∧ (∃ v, check_sequence_strict_order_interleaved
            (trace_of [act_A; act_B]) [] 1 = Ok v ∧ (v = 0 ∨ v = 2))
  ∧ (∃ v, check_sequence_nonstrict_order_interleaved
            (trace_of [act_A; act_B]) [] 1 = Ok v ∧ (v = 0 ∨ v = 2))
  ∧ check_trace_attribute (trace_of [act_A; act_B]) ∅ = 2
  ∧ check_trace_event_attributes (trace_of [act_A; act_B]) ∅ = 2.
Proof.
  apply (empty_configuration_verdicts (trace_of [act_A; act_B])
           [act_A; act_B] 1).
  - apply names_of_trace_of.
  - lia.
Defined.

(** [C10] On the empty pattern and for [count >= 1], on a trace whose
    events carry a name: both interleaved matchers return 0, and
    [check_sequence_strict_order] and [check_sequence_nonstrict_order]
    return 2 exactly when the trace has at least [count] events, and 0
    otherwise. *)
Theorem empty_pattern_verdicts (trace : Trace) (names : list str) (count : Z) :
  event_names concept_name trace = Ok names →
  1 ≤ count →
  check_sequence_strict_order_interleaved trace [] count = Ok 0
  ∧ check_sequence_nonstrict_order_interleaved trace [] count = Ok 0
  ∧ check_sequence_strict_order trace [] count hack_delim_default concept_name
    = Ok (if decide (count ≤ Z.of_nat (length (events trace))) then 2 else 0)
  ∧ check_sequence_nonstrict_order trace [] count hack_delim_default
      concept_name
    = Ok (if decide (count ≤ Z.of_nat (length (events trace))) then 2 else 0).
Proof. intros Hnames Hcount. by apply (empty_pattern trace names). Qed.

Lemma empty_pattern_verdicts_witness :
  check_sequence_strict_order_interleaved (trace_of [act_A; act_B]) [] 2
  = Ok 0
  ∧ check_sequence_nonstrict_order_interleaved (trace_of [act_A; act_B]) [] 2
    = Ok 0
  ∧ check_sequence_strict_order (trace_of [act_A; act_B]) [] 2
      hack_delim_default concept_name
    = Ok (if decide (2 ≤ Z.of_nat (length (events (trace_of [act_A; act_B]))))
          then 2 else 0)
  ∧ check_sequence_nonstrict_order (trace_of [act_A; act_B]) [] 2
      hack_delim_default concept_name
    = Ok (if decide (2 ≤ Z.of_nat (length (events (trace_of [act_A; act_B]))))
          then 2 else 0).
Proof.
  apply (empty_pattern_verdicts (trace_of [act_A; act_B]) [act_A; act_B] 2).
  - apply names_of_trace_of.
  - lia.
Defined.

(** ** The scenarios of the specification *)

Example scenario_response_satisfied :
  (rev_trace ← create_trace_reverse_index
                 (trace_of [act_A; act_X; act_B; act_C]) concept_name;
   check_response_constraint rev_trace act_A act_B) = Ok 2.
Proof. vm_compute. reflexivity. Qed.

Example scenario_response_unsatisfiable :
  (rev_trace ← create_trace_reverse_index (trace_of [act_B; act_A])
                 concept_name;
   check_response_constraint rev_trace act_A act_B) = Ok 0.
Proof. vm_compute. reflexivity. Qed.

Example scenario_response_vacuous :
  (rev_trace ← create_trace_reverse_index (trace_of []) concept_name;
   check_response_constraint rev_trace act_A act_B) = Ok 1.
Proof. vm_compute. reflexivity. Qed.

Example scenario_strict_interleaved :
  check_sequence_strict_order_interleaved
    (trace_of [act_A; act_B; act_C; act_A; act_B]) [act_A; act_B] 2 = Ok 2.
Proof. vm_compute. reflexivity. Qed.

Example scenario_strict_contiguous :
  check_sequence_strict_order (trace_of [act_A; act_C; act_B])
    [act_A; act_B] 1 hack_delim_default concept_name = Ok 0.
Proof. vm_compute. reflexivity. Qed.

Example scenario_trace_attribute :
  check_trace_attribute (mkTrace {[ pystr "amount" := pystr "45000" ]} [])
    {[ pystr "amount" := pystr "45000" ]} = 2
  ∧ check_trace_attribute (mkTrace {[ pystr "amount" := pystr "45000" ]} [])
      {[ pystr "amount" := pystr "6500" ]} = 0.
Proof. split; vm_compute; reflexivity. Qed.

(** * Further properties *)

(** ** Missing keys *)

Lemma names_of_Ok name evs :
  Forall (λ e, is_Some (e !! name)) evs → ∃ names, names_of name evs = Ok names.
Proof.
  induction 1 as [|e evs [n Hn] _ [ns Hns]]; [by exists []|].
  exists (n :: ns). cbn [names_of]. unfold getitem. by rewrite Hn, bind_Ok, Hns.
Qed.

Lemma rev_index_loop_KeyError name evs st :
  Exists (λ e, e !! name = None) evs →
  for_each (rev_index_body name) evs st = Raise KeyError.
Proof.
  intros Hex. revert st. induction Hex as [e evs He|e evs _ IH]; intros st.
  - cbn [for_each].
    replace (rev_index_body name st e) with (@Raise (nat * gmap str (list nat)) KeyError)
      by (unfold rev_index_body, getitem; by rewrite He).
    done.
  - cbn [for_each]. destruct (rev_index_body name st e) as [st'|err] eqn:Hst.
    + rewrite bind_Ok. apply IH.
    + unfold rev_index_body, getitem in Hst.
      destruct (e !! name); [done|]. by inversion Hst.
Qed.

Lemma reverse_index_Ok trace name :
  Forall (λ e, is_Some (e !! name)) (events trace) →
  ∃ rev_index, create_trace_reverse_index trace name = Ok rev_index.
Proof.
  intros [names Hnames]%names_of_Ok.
  destruct (reverse_index_spec trace name names Hnames) as [Hrev _]. eauto.
Qed.

(** [X1] [create_trace_reverse_index] returns an index when every event
    carries the key [name], and raises [KeyError] when some event does
    not. *)
Theorem reverse_index_key_error (trace : Trace) (name : str) :
  (Forall (λ e, is_Some (e !! name)) (events trace) →
   ∃ rev_index, create_trace_reverse_index trace name = Ok rev_index)
  ∧ (Exists (λ e, e !! name = None) (events trace) →
     create_trace_reverse_index trace name = Raise KeyError).
Proof.
  split; [apply reverse_index_Ok|].
  - intros Hex. unfold create_trace_reverse_index.
    by rewrite rev_index_loop_KeyError.
Qed.

Lemma log_reverse_index_loop name log acc idxs :
  Forall2 (λ trace rev, create_trace_reverse_index trace name = Ok rev)
          log idxs →
  for_each (λ reverse_indexes trace,
              rev_index ← create_trace_reverse_index trace name;
              Ok (reverse_indexes ++ [rev_index]))
           log acc
  = Ok (acc ++ idxs).
Proof.
  intros H. revert acc. induction H as [|trace rev log idxs Hrev _ IH]; intros acc.
  - by rewrite app_nil_r.
  - cbn [for_each]. rewrite Hrev, !bind_Ok, IH. by rewrite <- app_assoc.
Qed.

(** [X2] On a log whose events all carry the key [name],
    [create_log_reverse_index] returns one index per trace, in the order of
    the log, each the reverse index of its trace. *)
Theorem log_reverse_index_pointwise (log : list Trace) (name : str) :
  Forall (λ trace, Forall (λ e, is_Some (e !! name)) (events trace)) log →
  ∃ idxs,
    create_log_reverse_index log name = Ok idxs
    ∧ length idxs = length log
    ∧ ∀ i trace, log !! i = Some trace →
        ∃ rev, idxs !! i = Some rev
               ∧ create_trace_reverse_index trace name = Ok rev.
Proof.
  intros Hlog.
  assert (∃ idxs, Forall2 (λ trace rev,
                             create_trace_reverse_index trace name = Ok rev)
                          log idxs) as [idxs Hidxs].
  { induction Hlog as [|trace log Htrace _ [idxs IH]]; [by exists []|].
    destruct (reverse_index_Ok trace name Htrace) as [rev Hrev].
    exists (rev :: idxs). by constructor. }
  exists idxs. split; [|split].
  - unfold create_log_reverse_index.
    by rewrite (log_reverse_index_loop _ _ _ idxs).
  - symmetry. by eapply Forall2_length.
  - intros i trace Hi.
    destruct (Forall2_lookup_l _ _ _ _ _ Hidxs Hi) as (rev & Hrev & Hcreate).
    eauto.
Qed.

Lemma log_reverse_index_pointwise_witness :
  ∃ idxs,
    create_log_reverse_index [trace_of [act_A; act_B]; trace_of []]
      concept_name = Ok idxs
    ∧ length idxs = length [trace_of [act_A; act_B]; trace_of []]
    ∧ ∀ i trace,
        [trace_of [act_A; act_B]; trace_of []] !! i = Some trace →
        ∃ rev, idxs !! i = Some rev
               ∧ create_trace_reverse_index trace concept_name = Ok rev.
Proof.
  apply (log_reverse_index_pointwise [trace_of [act_A; act_B]; trace_of []]
           concept_name).
  apply (bool_decide_unpack _). vm_compute. exact I.
Defined.

(** ** Declarative constraints on the index of a trace *)

Lemma lookup_0_head {A} (l : list A) : l !! 0%nat = head l.
Proof. by destruct l. Qed.

(** [X3] On the reverse index of a trace, [check_existence_constraint]
    returns 2 when the activity occurs in the trace and 0 when it does
    not, and [check_init_constraint] returns 2 when the first event of the
    trace is the activity and 0 otherwise; neither raises. *)
Theorem existence_init_verdicts (trace : Trace) (names : list str) (a : str) :
  event_names concept_name trace = Ok names →
  ∃ rev_trace,
    create_trace_reverse_index trace concept_name = Ok rev_trace
    ∧ check_existence_constraint rev_trace a
      = (if decide (a ∈ names) then 2 else 0)
    ∧ check_init_constraint rev_trace a
      = Ok (if decide (head names = Some a) then 2 else 0).
Proof.
  intros H. destruct (reverse_index_spec _ _ _ H) as [Hrev Hlook].
  eexists. split; [exact Hrev|].
  unfold check_existence_constraint, check_init_constraint, rev_getitem.
  rewrite !Hlook. destruct (decide (a ∈ names)) as [Hin|Hnin].
  - rewrite !decide_False by done. split; [done|]. cbn [default]. unfold id.
    destruct (is_first_exists _ _ Hin) as [fa Hfa].
    rewrite (positions_first _ _ _ Hfa), bind_Ok. f_equal.
    destruct Hfa as [Hfa Hmin]. rewrite <- lookup_0_head.
    destruct (decide (fa = 0%nat)) as [->|Hne].
    + by rewrite decide_True.
    + rewrite decide_False; [done|]. intros H0. apply (Hmin 0%nat); [lia|done].
  - rewrite !decide_True by done. split; [done|].
    rewrite decide_False; [done|]. rewrite <- lookup_0_head. intros H0.
    apply Hnin. by eapply list_elem_of_lookup_2.
Qed.

Lemma existence_init_verdicts_witness :
  ∃ rev_trace,
    create_trace_reverse_index (trace_of [act_B; act_A]) concept_name
    = Ok rev_trace
    ∧ check_existence_constraint rev_trace act_A
      = (if decide (act_A ∈ [act_B; act_A]) then 2 else 0)
    ∧ check_init_constraint rev_trace act_A
      = Ok (if decide (head [act_B; act_A] = Some act_A) then 2 else 0).
Proof.
  apply (existence_init_verdicts (trace_of [act_B; act_A])
           [act_B; act_A] act_A).
  apply names_of_trace_of.
Defined.

(** The verdicts of the two ordering constraints on the index of a trace,
    from the last and first positions. *)
Lemma response_on_index names a b :
  check_response_constraint (index_names names 0 ∅) a b = Ok 2
  ↔ ∃ la lb, is_last names a la ∧ is_last names b lb ∧ (la < lb)%nat.
Proof.
  unfold check_response_constraint, rev_getitem.
  rewrite !index_names_lookup, !lookup_empty. cbn [default app].
  destruct (decide (a ∈ names)) as [Ha|Ha].
  2:{ rewrite decide_True by done. split; [done|].
      intros (la & _ & Hla%is_last_elem_of & _). done. }
  rewrite decide_False by done.
  destruct (decide (b ∈ names)) as [Hb|Hb].
  2:{ rewrite decide_True by done. split; [done|].
      intros (_ & lb & _ & Hlb%is_last_elem_of & _). done. }
  rewrite decide_False by done. cbn [default]. unfold id.
  destruct (is_last_exists _ _ Ha) as [la Hla].
  destruct (is_last_exists _ _ Hb) as [lb Hlb].
  rewrite (positions_last _ _ _ Hla), bind_Ok.
  rewrite (positions_last _ _ _ Hlb), bind_Ok.
  assert (∀ x i j, is_last names x i → is_last names x j → i = j) as Huniq.
  { intros x i j [Hi Hi'] [Hj Hj'].
    destruct (Nat.lt_trichotomy i j) as [?|[?|?]]; [|done|].
    - by destruct (Hi' j).
    - by destruct (Hj' i). }
  case_decide as Hlt; split; try done.
  - intros _. by exists la, lb.
  - intros (la' & lb' & Hla' & Hlb' & Hlt').
    rewrite (Huniq _ _ _ Hla Hla'), (Huniq _ _ _ Hlb Hlb') in Hlt. lia.
Qed.

Lemma precedence_on_index names a b :
  check_precedence_constraint (index_names names 0 ∅) a b = Ok 2
  ↔ ∃ fa fb, is_first names a fa ∧ is_first names b fb ∧ (fa < fb)%nat.
Proof.
  unfold check_precedence_constraint, rev_getitem.
  rewrite !index_names_lookup, !lookup_empty. cbn [default app].
  destruct (decide (b ∈ names)) as [Hb|Hb].
  2:{ rewrite decide_True by done. split; [done|].
      intros (_ & fb & _ & Hfb%is_first_elem_of & _). done. }
  rewrite decide_False by done.
  destruct (decide (a ∈ names)) as [Ha|Ha].
  2:{ rewrite decide_True by done. split; [done|].
      intros (fa & _ & Hfa%is_first_elem_of & _). done. }
  rewrite decide_False by done. cbn [default]. unfold id.
  destruct (is_first_exists _ _ Ha) as [fa Hfa].
  destruct (is_first_exists _ _ Hb) as [fb Hfb].
  rewrite (positions_first _ _ _ Hfa), bind_Ok.
  rewrite (positions_first _ _ _ Hfb), bind_Ok.
  assert (∀ x i j, is_first names x i → is_first names x j → i = j) as Huniq.
  { intros x i j [Hi Hi'] [Hj Hj'].
    destruct (Nat.lt_trichotomy i j) as [?|[?|?]]; [|done|].
    - by destruct (Hj' i).
    - by destruct (Hi' j). }
  case_decide as Hlt; split; try done.
  - intros _. by exists fa, fb.
  - intros (fa' & fb' & Hfa' & Hfb' & Hlt').
    rewrite (Huniq _ _ _ Hfa Hfa'), (Huniq _ _ _ Hfb Hfb') in Hlt. lia.
Qed.

(** [X4] On the reverse index of a trace, [check_response_constraint]
    returns 2 exactly when [a] occurs and every occurrence of [a] has an
    occurrence of [b] behind it: comparing the last positions decides the
    response constraint on all occurrences. *)
Theorem response_every_occurrence (trace : Trace) (names : list str)
    (a b : str) :
  event_names concept_name trace = Ok names →
  ∃ rev_trace,
    create_trace_reverse_index trace concept_name = Ok rev_trace
    ∧ (check_response_constraint rev_trace a b = Ok 2
       ↔ a ∈ names
         ∧ ∀ i, names !! i = Some a →
                ∃ j, (i < j)%nat ∧ names !! j = Some b).
Proof.
  intros H. destruct (reverse_index_spec _ _ _ H) as [Hrev _].
  eexists. split; [exact Hrev|]. rewrite response_on_index. split.
  - intros (la & lb & [Hla Hlast] & [Hlb _] & Hlt).
    split; [by eapply list_elem_of_lookup_2|].
    intros i Hi. exists lb. split; [|done].
    destruct (decide (i ≤ la)%nat); [lia|]. destruct (Hlast i); [lia|done].
  - intros [Ha Hall].
    destruct (is_last_exists _ _ Ha) as [la Hla].
    destruct (Hall la (proj1 Hla)) as (j & Hj & Hb).
    destruct (is_last_exists names b) as [lb Hlb];
      [by eapply list_elem_of_lookup_2|].
    exists la, lb. split; [done|]. split; [done|].
    destruct (decide (j ≤ lb)%nat); [lia|].
    destruct (proj2 Hlb j); [lia|done].
Qed.

Lemma response_every_occurrence_witness :
  ∃ rev_trace,
    create_trace_reverse_index (trace_of [act_A; act_B; act_A]) concept_name
    = Ok rev_trace
    ∧ (check_response_constraint rev_trace act_A act_B = Ok 2
       ↔ act_A ∈ [act_A; act_B; act_A]
         ∧ ∀ i, [act_A; act_B; act_A] !! i = Some act_A →
                ∃ j, (i < j)%nat ∧ [act_A; act_B; act_A] !! j = Some act_B).
Proof.
  apply (response_every_occurrence (trace_of [act_A; act_B; act_A])
           [act_A; act_B; act_A] act_A act_B).
  apply names_of_trace_of.
Defined.

(** [X5] On the reverse index of a trace, [check_precedence_constraint]
    returns 2 exactly when [b] occurs and every occurrence of [b] has an
    occurrence of [a] before it: comparing the first positions decides the
    precedence constraint on all occurrences. *)
Theorem precedence_every_occurrence (trace : Trace) (names : list str)
    (a b : str) :
  event_names concept_name trace = Ok names →
  ∃ rev_trace,
    create_trace_reverse_index trace concept_name = Ok rev_trace
    ∧ (check_precedence_constraint rev_trace a b = Ok 2
       ↔ b ∈ names
         ∧ ∀ j, names !! j = Some b →
                ∃ i, (i < j)%nat ∧ names !! i = Some a).
Proof.
  intros H. destruct (reverse_index_spec _ _ _ H) as [Hrev _].
  eexists. split; [exact Hrev|]. rewrite precedence_on_index. split.
  - intros (fa & fb & [Hfa _] & [Hfb Hfirst] & Hlt).
    split; [by eapply list_elem_of_lookup_2|].
    intros j Hj. exists fa. split; [|done].
    destruct (decide (fb ≤ j)%nat); [lia|]. destruct (Hfirst j); [lia|done].
  - intros [Hb Hall].
    destruct (is_first_exists _ _ Hb) as [fb Hfb].
    destruct (Hall fb (proj1 Hfb)) as (i & Hi & Ha).
    destruct (is_first_exists names a) as [fa Hfa];
      [by eapply list_elem_of_lookup_2|].
    exists fa, fb. split; [done|]. split; [done|].
    destruct (decide (fa ≤ i)%nat); [lia|].
    destruct (proj2 Hfa i); [lia|done].
Qed.

Lemma precedence_every_occurrence_witness :
  ∃ rev_trace,
    create_trace_reverse_index (trace_of [act_A; act_B; act_A]) concept_name
    = Ok rev_trace
    ∧ (check_precedence_constraint rev_trace act_A act_B = Ok 2
       ↔ act_B ∈ [act_A; act_B; act_A]
         ∧ ∀ j, [act_A; act_B; act_A] !! j = Some act_B →
                ∃ i, (i < j)%nat ∧ [act_A; act_B; act_A] !! i = Some act_A).
Proof.
  apply (precedence_every_occurrence (trace_of [act_A; act_B; act_A])
           [act_A; act_B; act_A] act_A act_B).
  apply names_of_trace_of.
Defined.

(** ** Interleaved matching as a search for a subsequence *)

Lemma sublist_cons_same {A} (x : A) l1 l2 :
  x :: l1 `sublist_of` x :: l2 ↔ l1 `sublist_of` l2.
Proof.
  split; [|by constructor].
  intros [H|(l' & [= <-] & H)]%sublist_cons_r; [|done].
  etrans; [|exact H]. by constructor.
Qed.

Lemma sublist_cons_other {A} (x y : A) l1 l2 :
  x ≠ y → x :: l1 `sublist_of` y :: l2 ↔ x :: l1 `sublist_of` l2.
Proof.
  intros Hne. split; [|by constructor].
  intros [H|(l' & [= -> _] & _)]%sublist_cons_r; done.
Qed.

Lemma sublist_filter_iff {A} (P : A → Prop) `{!∀ x, Decision (P x)}
    (t l : list A) :
  Forall P t → t `sublist_of` filter P l ↔ t `sublist_of` l.
Proof.
  intros Ht. split.
  - intros Hs. etrans; [exact Hs|]. apply sublist_filter.
  - intros Hsub. induction Hsub as [|x t l Hsub IH|x t l Hsub IH].
    + constructor.
    + apply Forall_cons in Ht as [Hx Ht].
      rewrite filter_cons_True by done. constructor. by apply IH.
    + rewrite filter_cons. case_decide; [constructor|]; by apply IH.
Qed.

Lemma strict_step_other sequence c x l n :
  n ≠ x → strict_interleaved_step sequence (c, x :: l) n = Ok (c, x :: l).
Proof.
  intros Hne. unfold strict_interleaved_step. cbn [fst snd first_item].
  rewrite bind_Ok. destruct (decide (n = x)); [done|].
  by rewrite decide_False.
Qed.

(** The cursor loop from the state [(c, copy_seq)]: it does not raise,
    its copy is never empty, and it completes [k] further occurrences
    exactly when the rest of the copy followed by [k] patterns is a
    subsequence of the names. *)
Lemma strict_run sequence names c copy_seq :
  sequence ≠ [] → copy_seq ≠ [] →
  ∃ c' copy_seq',
    for_each (strict_interleaved_step sequence) names (c, copy_seq)
    = Ok (c', copy_seq')
    ∧ copy_seq' ≠ [] ∧ (c ≤ c')%nat
    ∧ ∀ k, copy_seq ++ mjoin (replicate k sequence) `sublist_of` names
           ↔ (c + 1 + k ≤ c')%nat.
Proof.
  intros Hseq. revert c copy_seq.
  induction names as [|n names IH]; intros c copy_seq Hcopy.
  - exists c, copy_seq. split; [done|]. split; [done|]. split; [lia|].
    intros k. split; [|lia].
    intros Hs%sublist_nil_r. by destruct copy_seq.
  - destruct copy_seq as [|x l]; [done|]. cbn [for_each].
    destruct (decide (n = x)) as [->|Hne].
    + rewrite strict_step_head, bind_Ok.
      destruct (decide (l = [])) as [->|Hl].
      * destruct (IH (S c) sequence Hseq) as (c' & copy' & Hrun & Hne' & Hle & Hk).
        exists c', copy'. split; [done|]. split; [done|]. split; [lia|].
        intros k. cbn [app]. rewrite sublist_cons_same.
        destruct k as [|k].
        -- cbn [replicate mjoin list_join]. split; [lia|].
           intros _. apply sublist_nil_l.
        -- cbn [replicate mjoin list_join]. rewrite Hk. lia.
      * destruct (IH c l Hl) as (c' & copy' & Hrun & Hne' & Hle & Hk).
        exists c', copy'. split; [done|]. split; [done|]. split; [lia|].
        intros k. rewrite <- app_comm_cons, sublist_cons_same. apply Hk.
    + rewrite strict_step_other, bind_Ok by done.
      destruct (IH c (x :: l) Hcopy) as (c' & copy' & Hrun & Hne' & Hle & Hk).
      exists c', copy'. split; [done|]. split; [done|]. split; [lia|].
      intros k. rewrite <- app_comm_cons, sublist_cons_other by done.
      rewrite app_comm_cons. apply Hk.
Qed.

Lemma Forall_mjoin_replicate {A} (P : A → Prop) k (l : list A) :
  Forall P l → Forall P (mjoin (replicate k l)).
Proof.
  intros Hl. induction k as [|k IH]; [constructor|].
  cbn [replicate mjoin list_join]. by apply Forall_app.
Qed.

(** [X6] For a non-empty pattern, [check_sequence_strict_order_interleaved]
    does not raise on a trace whose events carry a name, and returns 2
    exactly when [count] copies of the pattern, one after the other, are a
    subsequence of the names of the trace, and 0 otherwise. *)
Theorem strict_interleaved_subsequence (trace : Trace)
    (names sequence : list str) (count : Z) :
  event_names concept_name trace = Ok names →
  sequence ≠ [] →
  (check_sequence_strict_order_interleaved trace sequence count = Ok 2
   ↔ mjoin (replicate (Z.to_nat count) sequence) `sublist_of` names)
  ∧ (check_sequence_strict_order_interleaved trace sequence count = Ok 2
     ∨ check_sequence_strict_order_interleaved trace sequence count = Ok 0).
Proof.
  intros Hnames Hseq. unfold check_sequence_strict_order_interleaved.
  rewrite (interleaved_loop_names strict_interleaved_step
             strict_interleaved_body _ _ names)
    by (done || apply strict_body_step).
  destruct (strict_run sequence (filter (λ n, n ∈ sequence) names) 0 sequence)
    as (c' & copy' & -> & _ & _ & Hk); [done..|].
  rewrite bind_Ok. cbn [fst]. split; [|case_decide; auto].
  rewrite <- (sublist_filter_iff (λ n, n ∈ sequence)).
  2:{ apply Forall_mjoin_replicate, Forall_forall. auto. }
  destruct (Z.to_nat count) as [|k] eqn:Hcount.
  - rewrite decide_True by lia. split; [intros _; apply sublist_nil_l|done].
  - cbn [replicate mjoin list_join]. rewrite Hk.
    case_decide; split; try done; lia.
Qed.

Lemma strict_interleaved_subsequence_witness :
  (check_sequence_strict_order_interleaved
     (trace_of [act_A; act_X; act_B; act_A; act_B]) [act_A; act_B] 2 = Ok 2
   ↔ mjoin (replicate (Z.to_nat 2) [act_A; act_B])
     `sublist_of` [act_A; act_X; act_B; act_A; act_B])
  ∧ (check_sequence_strict_order_interleaved
       (trace_of [act_A; act_X; act_B; act_A; act_B]) [act_A; act_B] 2 = Ok 2
     ∨ check_sequence_strict_order_interleaved
         (trace_of [act_A; act_X; act_B; act_A; act_B]) [act_A; act_B] 2
       = Ok 0).
Proof.
  apply (strict_interleaved_subsequence
           (trace_of [act_A; act_X; act_B; act_A; act_B])
           [act_A; act_X; act_B; act_A; act_B] [act_A; act_B] 2).
  - apply names_of_trace_of.
  - discriminate.
Defined.

(** [X7] The verdict of either interleaved matcher depends only on the
    events of the pattern's activities: two traces whose names agree after
    the other names are left out get the same verdict. *)
Theorem interleaved_ignores_other_events (trace1 trace2 : Trace)
    (names1 names2 sequence : list str) (count : Z) :
  event_names concept_name trace1 = Ok names1 →
  event_names concept_name trace2 = Ok names2 →
  filter (λ n, n ∈ sequence) names1 = filter (λ n, n ∈ sequence) names2 →
  check_sequence_strict_order_interleaved trace1 sequence count
  = check_sequence_strict_order_interleaved trace2 sequence count
  ∧ check_sequence_nonstrict_order_interleaved trace1 sequence count
    = check_sequence_nonstrict_order_interleaved trace2 sequence count.
Proof.
  intros H1 H2 Hfilter.
  unfold check_sequence_strict_order_interleaved,
    check_sequence_nonstrict_order_interleaved.
  rewrite (interleaved_loop_names strict_interleaved_step
             strict_interleaved_body _ _ names1)
    by (done || apply strict_body_step).
  rewrite (interleaved_loop_names strict_interleaved_step
             strict_interleaved_body _ _ names2)
    by (done || apply strict_body_step).
  rewrite (interleaved_loop_names nonstrict_interleaved_step
             nonstrict_interleaved_body _ _ names1)
    by (done || apply nonstrict_body_step).
  rewrite (interleaved_loop_names nonstrict_interleaved_step
             nonstrict_interleaved_body _ _ names2)
    by (done || apply nonstrict_body_step).
  by rewrite Hfilter.
Qed.

Lemma interleaved_ignores_other_events_witness :
  check_sequence_strict_order_interleaved
    (trace_of [act_A; act_X; act_B]) [act_A; act_B] 1
  = check_sequence_strict_order_interleaved
      (trace_of [act_C; act_A; act_B]) [act_A; act_B] 1
  ∧ check_sequence_nonstrict_order_interleaved
      (trace_of [act_A; act_X; act_B]) [act_A; act_B] 1
    = check_sequence_nonstrict_order_interleaved
        (trace_of [act_C; act_A; act_B]) [act_A; act_B] 1.
Proof.
  apply (interleaved_ignores_other_events
           (trace_of [act_A; act_X; act_B]) (trace_of [act_C; act_A; act_B])
           [act_A; act_X; act_B] [act_C; act_A; act_B]).
  - apply names_of_trace_of.
  - apply names_of_trace_of.
  - vm_compute. reflexivity.
Defined.

(** ** The non-strict interleaved matcher completes at least as often *)

Lemma list_remove_Some x l l' : list_remove x l = Some l' → l ≡ₚ x :: l'.
Proof.
  revert l'. induction l as [|y l IH]; intros l'; [done|].
  cbn [list_remove]. destruct (decide (x = y)) as [->|Hne].
  - by intros [= ->].
  - destruct (list_remove x l) as [r|]; [|done]. intros [= <-].
    rewrite (IH r eq_refl). apply Permutation_swap.
Qed.

Lemma list_remove_None x l : list_remove x l = None → x ∉ l.
Proof.
  induction l as [|y l IH]; [intros _; apply not_elem_of_nil|].
  cbn [list_remove]. destruct (decide (x = y)) as [->|Hne]; [done|].
  destruct (list_remove x l); [done|]. intros _.
  intros [?|?]%elem_of_cons; [done|]. by apply IH.
Qed.

(** One step of both loops keeps the working copy of the non-strict
    matcher within that of the strict one, unless the non-strict matcher
    is already ahead. *)
Lemma interleaved_step_simulation sequence n cs copys cn copyn :
  sequence ≠ [] → copys ≠ [] → copyn ≠ [] → copyn ⊆+ sequence →
  (cs < cn)%nat ∨ (cs = cn ∧ copyn ⊆+ copys) →
  ∃ cs' copys' cn' copyn',
    strict_interleaved_step sequence (cs, copys) n = Ok (cs', copys')
    ∧ nonstrict_interleaved_step sequence (cn, copyn) n = Ok (cn', copyn')
    ∧ copys' ≠ [] ∧ copyn' ≠ [] ∧ copyn' ⊆+ sequence
    ∧ ((cs' < cn')%nat ∨ (cs' = cn' ∧ copyn' ⊆+ copys')).
Proof.
  intros Hseq Hcopys Hcopyn Hsub Hinv.
  destruct copys as [|x l]; [done|].
  (* the step of the non-strict matcher *)
  assert (∃ cn' copyn',
            nonstrict_interleaved_step sequence (cn, copyn) n
            = Ok (cn', copyn')
            ∧ copyn' ≠ [] ∧ copyn' ⊆+ sequence
            ∧ ((cn' = cn ∧ copyn' = copyn ∧ n ∉ copyn)
               ∨ (cn' = cn ∧ copyn ≡ₚ n :: copyn')
               ∨ (cn' = S cn ∧ copyn ≡ₚ [n])))
    as (cn' & copyn' & Hn & Hne' & Hsub' & Hcases).
  { unfold nonstrict_interleaved_step. cbn [fst snd].
    destruct (list_remove n copyn) as [r|] eqn:Hrem.
    - apply list_remove_Some in Hrem. destruct r as [|y r].
      + exists (S cn), sequence. rewrite decide_True by done.
        repeat split; try done. right; right. done.
      + exists cn, (y :: r). rewrite decide_False by done.
        split; [done|]. split; [done|]. split.
        * etrans; [|exact Hsub]. rewrite Hrem. by constructor.
        * right; left. done.
    - apply list_remove_None in Hrem. exists cn, copyn.
      split; [done|]. split; [done|]. split; [done|]. by left. }
  destruct (decide (n = x)) as [->|Hne].
  - rewrite strict_step_head.
    destruct (decide (l = [])) as [->|Hl].
    + exists (S cs), sequence, cn', copyn'.
      split; [done|]. split; [done|]. split; [done|]. split; [done|].
      split; [done|].
      destruct Hinv as [Hlt|[-> Hin]].
      { destruct (decide (S cs < cn')%nat); [by left|]. right.
        split; [|done]. destruct Hcases as [(->&_)|[(->&_)|(->&_)]]; lia. }
      destruct Hcases as [(->&->&Hnin)|[(->&Hperm)|(->&Hperm)]].
      * apply submseteq_cons_r in Hin as [Hin|(r & Hr & _)].
        -- apply submseteq_nil_r in Hin. done.
        -- destruct Hnin. rewrite Hr. left.
      * rewrite Hperm in Hin. apply (submseteq_app_inv_l _ _ [x]) in Hin.
        by apply submseteq_nil_r in Hin.
      * right. done.
    + exists cs, l, cn', copyn'.
      split; [done|]. split; [done|]. split; [done|]. split; [done|].
      split; [done|].
      destruct Hinv as [Hlt|[-> Hin]].
      { left. destruct Hcases as [(->&_)|[(->&_)|(->&_)]]; lia. }
      destruct Hcases as [(->&->&Hnin)|[(->&Hperm)|(->&Hperm)]].
      * right. split; [done|].
        apply submseteq_cons_r in Hin as [Hin|(r & Hr & _)]; [done|].
        destruct Hnin. rewrite Hr. left.
      * right. split; [done|]. rewrite Hperm in Hin.
        by apply (submseteq_app_inv_l _ _ [x]) in Hin.
      * left. lia.
  - rewrite strict_step_other by done.
    exists cs, (x :: l), cn', copyn'.
    split; [done|]. split; [done|]. split; [done|]. split; [done|].
    split; [done|].
    destruct Hinv as [Hlt|[-> Hin]].
    { left. destruct Hcases as [(->&_)|[(->&_)|(->&_)]]; lia. }
    destruct Hcases as [(->&->&Hnin)|[(->&Hperm)|(->&Hperm)]].
    + by right.
    + right. split; [done|]. etrans; [|exact Hin].
      rewrite Hperm. by constructor.
    + left. lia.
Qed.

Lemma interleaved_run_simulation sequence names cs copys cn copyn :
  sequence ≠ [] → copys ≠ [] → copyn ≠ [] → copyn ⊆+ sequence →
  (cs < cn)%nat ∨ (cs = cn ∧ copyn ⊆+ copys) →
  ∃ cs' copys' cn' copyn',
    for_each (strict_interleaved_step sequence) names (cs, copys)
    = Ok (cs', copys')
    ∧ for_each (nonstrict_interleaved_step sequence) names (cn, copyn)
      = Ok (cn', copyn')
    ∧ (cs' ≤ cn')%nat.
Proof.
  intros Hseq. revert cs copys cn copyn.
  induction names as [|n names IH]; intros cs copys cn copyn Hs Hn Hsub Hinv.
  - exists cs, copys, cn, copyn. split; [done|]. split; [done|]. lia.
  - destruct (interleaved_step_simulation sequence n cs copys cn copyn)
      as (cs1 & copys1 & cn1 & copyn1 & Hstep_s & Hstep_n & Hs1 & Hn1
          & Hsub1 & Hinv1); [done..|].
    cbn [for_each]. rewrite Hstep_s, Hstep_n, !bind_Ok. by apply IH.
Qed.

(** [X8] For a non-empty pattern and a trace whose events carry a name:
    whenever [check_sequence_strict_order_interleaved] returns 2,
    [check_sequence_nonstrict_order_interleaved] returns 2 for the same
    pattern and [count]. *)
Theorem strict_interleaved_implies_nonstrict (trace : Trace)
    (names sequence : list str) (count : Z) :
  event_names concept_name trace = Ok names →
  sequence ≠ [] →
  check_sequence_strict_order_interleaved trace sequence count = Ok 2 →
  check_sequence_nonstrict_order_interleaved trace sequence count = Ok 2.
Proof.
  intros Hnames Hseq.
  unfold check_sequence_strict_order_interleaved,
    check_sequence_nonstrict_order_interleaved.
  rewrite (interleaved_loop_names strict_interleaved_step
             strict_interleaved_body _ _ names)
    by (done || apply strict_body_step).
  rewrite (interleaved_loop_names nonstrict_interleaved_step
             nonstrict_interleaved_body _ _ names)
    by (done || apply nonstrict_body_step).
  destruct (interleaved_run_simulation sequence
              (filter (λ n, n ∈ sequence) names) 0 sequence 0 sequence)
    as (cs' & copys' & cn' & copyn' & -> & -> & Hle); [done..|by right|].
  rewrite !bind_Ok. cbn [fst]. case_decide; [|done]. intros _.
  by rewrite decide_True by lia.
Qed.

Lemma strict_interleaved_implies_nonstrict_witness :
  check_sequence_nonstrict_order_interleaved
    (trace_of [act_A; act_X; act_B; act_B; act_A; act_B]) [act_A; act_B] 2
  = Ok 2.
Proof.
  apply (strict_interleaved_implies_nonstrict
           (trace_of [act_A; act_X; act_B; act_B; act_A; act_B])
           [act_A; act_X; act_B; act_B; act_A; act_B]).
  - apply names_of_trace_of.
  - discriminate.
  - vm_compute. reflexivity.
Defined.

(** ** The required count *)

Lemma interleaved_count_inv {S} (loop : result (nat * S)) (count : Z) :
  (st ← loop; if decide (count ≤ Z.of_nat st.1) then Ok 2 else Ok 0) = Ok 2 →
  ∃ st, loop = Ok st ∧ count ≤ Z.of_nat st.1.
Proof.
  destruct loop as [st|]; [|done]. rewrite bind_Ok.
  case_decide; [eauto|done].
Qed.

Lemma nonstrict_order_satisfied_inv trace sequence count hack_delim name :
  check_sequence_nonstrict_order trace sequence count hack_delim name = Ok 2 →
  ∃ names filtered,
    event_names name trace = Ok names
    ∧ count ≤ Z.of_nat (length (events trace))
    ∧ count ≤ Z.of_nat (length (found_indices names sequence))
    ∧ filter_indices (length sequence)
        (sorted_set (found_indices names sequence)) = Ok filtered
    ∧ count ≤ Z.of_nat (length filtered).
Proof.
  unfold check_sequence_nonstrict_order. case_decide as Hlen; [done|].
  intros H. apply bind_Ok_inv in H as (names & Hnames & H).
  case_decide as Hfound; [done|].
  apply bind_Ok_inv in H as (filtered & Hfiltered & H).
  case_decide; [|done]. exists names, filtered. repeat split; try done; lia.
Qed.

(** [X9] Each of the four sequence matchers that returns 2 for [count]
    returns 2 for every smaller [count]. *)
Theorem sequence_matchers_smaller_count (trace : Trace) (sequence : list str)
    (count count' : Z) (hack_delim name : str) :
  count' ≤ count →
  (check_sequence_strict_order trace sequence count hack_delim name = Ok 2 →
   check_sequence_strict_order trace sequence count' hack_delim name = Ok 2)
  ∧ (check_sequence_nonstrict_order trace sequence count hack_delim name
     = Ok 2 →
     check_sequence_nonstrict_order trace sequence count' hack_delim name
     = Ok 2)
  ∧ (check_sequence_strict_order_interleaved trace sequence count = Ok 2 →
     check_sequence_strict_order_interleaved trace sequence count' = Ok 2)
  ∧ (check_sequence_nonstrict_order_interleaved trace sequence count = Ok 2 →
     check_sequence_nonstrict_order_interleaved trace sequence count' = Ok 2).
Proof.
  intros Hle. split; [|split; [|split]].
  - intros (names & Hnames & Hlen & Hcount)%strict_order_satisfied_inv.
    rewrite (strict_order_unfold _ _ _ _ _ names) by (done || lia).
    by rewrite decide_True by lia.
  - intros (names & filtered & Hnames & Hlen & Hfound & Hfiltered & Hcount)
             %nonstrict_order_satisfied_inv.
    unfold check_sequence_nonstrict_order.
    rewrite decide_False by lia. rewrite Hnames, bind_Ok.
    rewrite decide_False by lia. rewrite Hfiltered, bind_Ok.
    by rewrite decide_True by lia.
  - unfold check_sequence_strict_order_interleaved.
    intros (st & -> & Hcount)%interleaved_count_inv.
    rewrite bind_Ok. by rewrite decide_True by lia.
  - unfold check_sequence_nonstrict_order_interleaved.
    intros (st & -> & Hcount)%interleaved_count_inv.
    rewrite bind_Ok. by rewrite decide_True by lia.
Qed.

Lemma sequence_matchers_smaller_count_witness :
  (check_sequence_strict_order (trace_of [act_A; act_B; act_A; act_B])
     [act_A; act_B] 2 hack_delim_default concept_name = Ok 2 →
   check_sequence_strict_order (trace_of [act_A; act_B; act_A; act_B])
     [act_A; act_B] 1 hack_delim_default concept_name = Ok 2)
  ∧ (check_sequence_nonstrict_order (trace_of [act_A; act_B; act_A; act_B])
       [act_A; act_B] 2 hack_delim_default concept_name = Ok 2 →
     check_sequence_nonstrict_order (trace_of [act_A; act_B; act_A; act_B])
       [act_A; act_B] 1 hack_delim_default concept_name = Ok 2)
  ∧ (check_sequence_strict_order_interleaved
       (trace_of [act_A; act_B; act_A; act_B]) [act_A; act_B] 2 = Ok 2 →
     check_sequence_strict_order_interleaved
       (trace_of [act_A; act_B; act_A; act_B]) [act_A; act_B] 1 = Ok 2)
  ∧ (check_sequence_nonstrict_order_interleaved
       (trace_of [act_A; act_B; act_A; act_B]) [act_A; act_B] 2 = Ok 2 →
     check_sequence_nonstrict_order_interleaved
       (trace_of [act_A; act_B; act_A; act_B]) [act_A; act_B] 1 = Ok 2).
Proof.
  apply (sequence_matchers_smaller_count
           (trace_of [act_A; act_B; act_A; act_B]) [act_A; act_B] 2 1
           hack_delim_default concept_name).
  lia.
Defined.

(** ** The permutation matcher *)

(** [X10] For a non-empty pattern of length [m],
    [check_sequence_nonstrict_order] returns 2 only when the trace has
    [count] or more windows of [m] names that hold the names of the
    pattern in some order and do not overlap. *)
Theorem nonstrict_order_sound (trace : Trace) (sequence : list str)
    (count : Z) (hack_delim name : str) :
  sequence ≠ [] →
  check_sequence_nonstrict_order trace sequence count hack_delim name = Ok 2 →
  ∃ names ps,
    event_names name trace = Ok names
    ∧ count ≤ Z.of_nat (length ps)
    ∧ Gapped (length sequence) ps
    ∧ Forall (λ p, (p + length sequence ≤ length names)%nat
                   ∧ window (length sequence) names p ≡ₚ sequence) ps.
Proof.
  intros Hseq
    (names & filtered & Hnames & Hlen & Hfound & Hfiltered & Hcount)
      %nonstrict_order_satisfied_inv.
  exists names, filtered. split; [done|]. split; [done|].
  destruct (sorted_set (found_indices names sequence))
    as [|first rest] eqn:Hsorted; [done|].
  rewrite filter_indices_select in Hfiltered. injection Hfiltered as <-.
  split.
  - constructor; [apply select_Gapped|apply select_bound].
  - apply Forall_forall. intros i Hi.
    assert (i ∈ found_indices names sequence) as Hin.
    { apply elem_of_sorted_set. rewrite Hsorted.
      apply elem_of_cons in Hi as [->|Hi]; [left|right].
      by eapply select_subseteq. }
    apply elem_of_found_indices in Hin as [Hlt Hperm]. split; [lia|done].
Qed.

Lemma nonstrict_order_sound_witness :
  ∃ names ps,
    event_names concept_name (trace_of [act_B; act_A; act_C]) = Ok names
    ∧ 1 ≤ Z.of_nat (length ps)
    ∧ Gapped (length [act_A; act_B]) ps
    ∧ Forall (λ p, (p + length [act_A; act_B] ≤ length names)%nat
                   ∧ window (length [act_A; act_B]) names p
                     ≡ₚ [act_A; act_B]) ps.
Proof.
  apply (nonstrict_order_sound (trace_of [act_B; act_A; act_C])
           [act_A; act_B] 1 hack_delim_default concept_name).
  - discriminate.
  - vm_compute. reflexivity.
Defined.

(** [X11] For [count <= 0] and a trace whose events carry a name,
    [check_sequence_strict_order] and both interleaved matchers return 2
    for a non-empty pattern, while [check_sequence_nonstrict_order] raises
    [IndexError] when it finds no index, at [found_indices[0]], and returns
    2 otherwise. *)
Theorem sequence_matchers_count_not_positive (trace : Trace)
    (names sequence : list str) (count : Z) (hack_delim : str) :
  event_names concept_name trace = Ok names →
  sequence ≠ [] →
  count ≤ 0 →
  check_sequence_strict_order trace sequence count hack_delim concept_name
  = Ok 2
  ∧ check_sequence_strict_order_interleaved trace sequence count = Ok 2
  ∧ check_sequence_nonstrict_order_interleaved trace sequence count = Ok 2
  ∧ check_sequence_nonstrict_order trace sequence count hack_delim
      concept_name
    = (if decide (found_indices names sequence = []) then Raise IndexError
       else Ok 2).
Proof.
  intros Hnames Hseq Hcount. split; [|split; [|split]].
  - rewrite (strict_order_unfold _ _ _ _ _ names) by (done || lia).
    by rewrite decide_True by lia.
  - unfold check_sequence_strict_order_interleaved.
    rewrite (interleaved_loop_names strict_interleaved_step
               strict_interleaved_body _ _ names)
      by (done || apply strict_body_step).
    destruct (interleaved_run_simulation sequence
                (filter (λ n, n ∈ sequence) names) 0 sequence 0 sequence)
      as (cs' & copys' & cn' & copyn' & -> & _ & _); [done..|by right|].
    rewrite bind_Ok. by rewrite decide_True by lia.
  - unfold check_sequence_nonstrict_order_interleaved.
    rewrite (interleaved_loop_names nonstrict_interleaved_step
               nonstrict_interleaved_body _ _ names)
      by (done || apply nonstrict_body_step).
    destruct (interleaved_run_simulation sequence
                (filter (λ n, n ∈ sequence) names) 0 sequence 0 sequence)
      as (cs' & copys' & cn' & copyn' & _ & -> & _); [done..|by right|].
    rewrite bind_Ok. by rewrite decide_True by lia.
  - unfold check_sequence_nonstrict_order.
    rewrite decide_False by lia. rewrite Hnames, bind_Ok.
    rewrite decide_False by lia.
    destruct (sorted_set (found_indices names sequence))
      as [|first rest] eqn:Hsorted.
    + rewrite decide_True; [done|].
      destruct (found_indices names sequence) as [|i l]; [done|].
      assert (i ∈ sorted_set (i :: l)) as Hi
        by (apply elem_of_sorted_set; left).
      rewrite Hsorted in Hi. by apply elem_of_nil in Hi.
    + rewrite filter_indices_select, bind_Ok.
      rewrite decide_True by lia. rewrite decide_False; [done|].
      intros Hnil. rewrite Hnil in Hsorted. done.
Qed.

Lemma sequence_matchers_count_not_positive_witness :
  check_sequence_strict_order (trace_of [act_A; act_B]) [act_C] 0
    hack_delim_default concept_name = Ok 2
  ∧ check_sequence_strict_order_interleaved (trace_of [act_A; act_B])
      [act_C] 0 = Ok 2
  ∧ check_sequence_nonstrict_order_interleaved (trace_of [act_A; act_B])
      [act_C] 0 = Ok 2
  ∧ check_sequence_nonstrict_order (trace_of [act_A; act_B]) [act_C] 0
      hack_delim_default concept_name
    = (if decide (found_indices [act_A; act_B] [act_C] = [])
       then Raise IndexError else Ok 2).
Proof.
  apply (sequence_matchers_count_not_positive (trace_of [act_A; act_B])
           [act_A; act_B] [act_C] 0 hack_delim_default).
  - apply names_of_trace_of.
  - discriminate.
  - lia.
Defined.

(** ** The attribute checks *)

(** [X12] [check_trace_attribute] returns 2 exactly when every pair of
    the rule is a pair of the attributes of the trace, and 0 otherwise. *)
Theorem trace_attribute_included (trace : Trace)
    (attribute_value_dict : gmap str str) :
  (check_trace_attribute trace attribute_value_dict = 2
   ↔ attribute_value_dict ⊆ attributes trace)
  ∧ (check_trace_attribute trace attribute_value_dict = 2
     ∨ check_trace_attribute trace attribute_value_dict = 0).
Proof.
  unfold check_trace_attribute. rewrite items_verdict.
  split; [|case_decide; auto].
  rewrite map_subseteq_spec. unfold py_str.
  case_decide as Hall; split; try done.
  - intros _ k v Hkv. eapply bool_decide_eq_true_1, Hall, Hkv.
  - intros Hsub. destruct Hall. intros k v Hkv.
    by apply bool_decide_eq_true_2, Hsub.
Qed.

Lemma first_match_spec test items :
  first_match test items
  = if decide (Exists (λ kv, test kv.1 kv.2 = true) items) then 2 else 0.
Proof.
  induction items as [|[k v] items IH]; cbn [first_match].
  - rewrite decide_False; [done|]. by intros ?%Exists_nil.
  - destruct (test k v) eqn:Ht.
    + rewrite decide_True; [done|]. by left.
    + rewrite IH. destruct (decide (Exists _ items)) as [Hex|Hnex].
      * rewrite decide_True; [done|]. by right.
      * rewrite decide_False; [done|].
        intros [Hkv|?]%Exists_cons; [|done]. simpl in Hkv. congruence.
Qed.

Lemma split_head_spec s key :
  split_head s = key
  ↔ (colon ∉ key)
    ∧ ∃ rest, s = key ++ rest ∧ (rest = [] ∨ ∃ r, rest = colon :: r).
Proof.
  revert key. induction s as [|c s IH]; intros key; cbn [split_head].
  - split.
    + intros <-. split; [apply not_elem_of_nil|]. exists []. auto.
    + intros (_ & rest & Hs & _). symmetry in Hs.
      by apply app_eq_nil in Hs as [-> _].
  - destruct (decide (c = colon)) as [->|Hne].
    + split.
      * intros <-. split; [apply not_elem_of_nil|]. exists (colon :: s). eauto.
      * intros (Hkey & rest & Hs & _). destruct key as [|c' key]; [done|].
        injection Hs as <- _. destruct Hkey. left.
    + split.
      * intros <-. destruct (proj1 (IH (split_head s)) eq_refl)
          as (Hkey & rest & Hs & Hrest).
        split; [|exists rest; split; [by rewrite Hs at 1|done]].
        intros [?|?]%elem_of_cons; done.
      * intros (Hkey & rest & Hs & Hrest). destruct key as [|c' key].
        -- destruct Hrest as [->|[r ->]]; [done|].
           injection Hs as -> _. done.
        -- injection Hs as <- Hs. f_equal. apply IH.
           split; [|by exists rest]. intros ?. apply Hkey. by right.
Qed.

Lemma attribute_key_split_head attrib : attribute_key attrib = split_head attrib.
Proof.
  unfold attribute_key. case_decide as Hc; [done|]. symmetry.
  apply split_head_spec. split; [done|]. exists []. by rewrite app_nil_r; auto.
Qed.

(** [X13] [check_one_trace_attribute] returns 2 exactly when [attribute]
    holds no colon and the trace has an attribute with value [val] whose
    key is [attribute], or [attribute] followed by a colon and anything;
    it returns 0 otherwise, so always when [attribute] holds a colon. *)
Theorem one_trace_attribute_prefix (trace : Trace) (attribute val : str) :
  (check_one_trace_attribute trace attribute val = 2
   ↔ (colon ∉ attribute)
     ∧ ∃ rest, attributes trace !! (attribute ++ rest) = Some val
               ∧ (rest = [] ∨ ∃ r, rest = colon :: r))
  ∧ (check_one_trace_attribute trace attribute val = 2
     ∨ check_one_trace_attribute trace attribute val = 0)
  ∧ (colon ∈ attribute → check_one_trace_attribute trace attribute val = 0).
Proof.
  unfold check_one_trace_attribute. rewrite first_match_spec.
  assert (Exists (λ kv : str * str,
                    bool_decide (attribute_key kv.1 = attribute
                                 ∧ py_str val = py_str kv.2) = true)
                 (map_to_list (attributes trace))
          ↔ (colon ∉ attribute)
            ∧ ∃ rest, attributes trace !! (attribute ++ rest) = Some val
                      ∧ (rest = [] ∨ ∃ r, rest = colon :: r)) as Hiff.
  { rewrite Exists_exists. split.
    - intros ([attrib v] & Hin%elem_of_map_to_list & Ht).
      apply bool_decide_eq_true_1 in Ht as [Hkey Hv]. cbn [fst snd] in *.
      rewrite attribute_key_split_head in Hkey.
      apply split_head_spec in Hkey as (Hc & rest & -> & Hrest).
      split; [done|]. exists rest. unfold py_str in Hv. by subst.
    - intros (Hc & rest & Hlook & Hrest). exists (attribute ++ rest, val).
      split; [by apply elem_of_map_to_list|].
      apply bool_decide_eq_true_2. cbn [fst snd]. split; [|done].
      rewrite attribute_key_split_head. apply split_head_spec. eauto. }
  split; [|split].
  - rewrite <- Hiff. case_decide; split; done.
  - case_decide; auto.
  - intros Hc. rewrite decide_False; [done|]. rewrite Hiff. by intros [? _].
Qed.

Lemma match_atleast_once_spec evs attribute val :
  match_atleast_once evs attribute val
  = if decide (Exists (λ e, e !! attribute = Some val) evs) then 2 else 0.
Proof.
  induction evs as [|e evs IH]; cbn [match_atleast_once].
  - rewrite decide_False; [done|]. by intros ?%Exists_nil.
  - unfold py_str. destruct (e !! attribute) as [v|] eqn:He.
    + destruct (decide (v = val)) as [->|Hne].
      * rewrite decide_True; [done|]. by left.
      * rewrite IH. destruct (decide (Exists _ evs)).
        -- rewrite decide_True; [done|]. by right.
        -- rewrite decide_False; [done|].
           intros [?|?]%Exists_cons; [congruence|done].
    + rewrite IH. destruct (decide (Exists _ evs)).
      * rewrite decide_True; [done|]. by right.
      * rewrite decide_False; [done|].
        intros [?|?]%Exists_cons; [congruence|done].
Qed.

Lemma first_carrying_Some k evs v :
  first_carrying k evs = Some v → Exists (λ e, e !! k = Some v) evs.
Proof.
  induction evs as [|e evs IH]; [done|]. cbn [first_carrying].
  destruct (e !! k) eqn:He.
  - intros [= ->]. by left.
  - intros Hv. right. by apply IH.
Qed.

(** [X14] [check_trace_event_match_atleast_once] returns 2 exactly when
    some event of the trace carries the key with the value, and 0
    otherwise; and whenever [check_trace_event_attributes] returns 2 for
    the rule of one pair, it returns 2 for that pair. *)
Theorem event_match_atleast_once (trace : Trace) (attribute val : str) :
  (check_trace_event_match_atleast_once trace attribute val = 2
   ↔ ∃ e, e ∈ events trace ∧ e !! attribute = Some val)
  ∧ (check_trace_event_match_atleast_once trace attribute val = 2
     ∨ check_trace_event_match_atleast_once trace attribute val = 0)
  ∧ (check_trace_event_attributes trace {[ attribute := val ]} = 2 →
     check_trace_event_match_atleast_once trace attribute val = 2).
Proof.
  unfold check_trace_event_match_atleast_once.
  rewrite match_atleast_once_spec. split; [|split].
  - case_decide as Hex; rewrite Exists_exists in Hex; split; done.
  - case_decide; auto.
  - unfold check_trace_event_attributes. rewrite items_verdict.
    case_decide as Hall; [|done]. intros _.
    rewrite decide_True; [done|].
    specialize (Hall attribute val (lookup_singleton_eq _ _)).
    apply bool_decide_eq_true_1 in Hall.
    rewrite collect_event_attributes_lookup in Hall
      by (rewrite lookup_singleton_eq; eauto).
    unfold py_str in Hall. apply first_carrying_Some.
    by destruct (first_carrying attribute (events trace)); inversion Hall.
Qed.

(** ** The labelling script *)





(** *** The table of labels *)

Lemma results_append_fresh results key label :
  key ∉ results.*1 →
  results_append results key label = results ++ [(key, [label])].
Proof.
  induction results as [|[k labels] results IH]; intros Hkey; [done|].
  cbn [results_append]. rewrite decide_False.
  - cbn [app]. f_equal. apply IH. intros ?. apply Hkey. by right.
  - intros ->. apply Hkey. left.
Qed.

Lemma results_append_skip pre results key label :
  key ∉ pre.*1 →
  results_append (pre ++ results) key label
  = pre ++ results_append results key label.
Proof.
  induction pre as [|[k labels] pre IH]; intros Hkey; [done|].
  cbn [results_append app]. rewrite decide_False.
  - f_equal. apply IH. intros ?. apply Hkey. by right.
  - intros ->. apply Hkey. left.
Qed.

(** The labels of the first trace open one list per key. *)
Lemma add_row_first (row : list (str * str)) (pre : list (str * list str)) :
  NoDup (pre.*1 ++ row.*1) →
  foldl (λ results kl, results_append results kl.1 kl.2) pre row
  = pre ++ ((λ kl, (kl.1, [kl.2])) <$> row).
Proof.
  revert pre. induction row as [|[k l] row IH]; intros pre Hnd.
  - by rewrite app_nil_r.
  - cbn [foldl fst snd]. rewrite results_append_fresh.
    + rewrite IH.
      * rewrite <- app_assoc. done.
      * rewrite fmap_app, <- app_assoc. done.
    + apply NoDup_app in Hnd as (_ & Hdisj & _). intros Hk.
      apply (Hdisj _ Hk). left.
Qed.

(** The labels of a further trace extend the list of each key. *)
Lemma add_row_next (row : list (str * str)) (pre results : list (str * list str)) :
  NoDup (pre.*1 ++ row.*1) → results.*1 = row.*1 →
  foldl (λ results kl, results_append results kl.1 kl.2) (pre ++ results) row
  = pre ++ zip_with (λ kc kl, (kc.1, kc.2 ++ [kl.2])) results row.
Proof.
  revert pre results.
  induction row as [|[k l] row IH]; intros pre results Hnd Hkeys.
  - destruct results; [|done]. done.
  - destruct results as [|[k' c] results]; [done|].
    injection Hkeys as -> Hkeys. cbn [foldl fst snd zip_with].
    rewrite results_append_skip.
    2:{ apply NoDup_app in Hnd as (_ & Hdisj & _). intros Hk.
        apply (Hdisj _ Hk). left. }
    cbn [results_append]. rewrite decide_True by done.
    rewrite (cons_middle _ pre), app_assoc. rewrite IH; [|
      rewrite fmap_app, <- app_assoc; exact Hnd |done].
    by rewrite <- app_assoc.
Qed.

Lemma zip_extend (P Q : str * list str → Prop) (results : list (str * list str))
    (row : list (str * str)) :
  results.*1 = row.*1 →
  Forall P results →
  (∀ kc kl, P kc → kl ∈ row → kc.1 = kl.1 → Q (kc.1, kc.2 ++ [kl.2])) →
  Forall Q (zip_with (λ kc kl, (kc.1, kc.2 ++ [kl.2])) results row)
  ∧ (zip_with (λ kc kl, (kc.1, kc.2 ++ [kl.2])) results row).*1 = results.*1.
Proof.
  revert row. induction results as [|kc results IH]; intros row Hkeys HP HQ.
  - split; [constructor|done].
  - destruct row as [|kl row]; [done|]. injection Hkeys as Hk Hkeys.
    apply Forall_cons in HP as [HPkc HP].
    destruct (IH row Hkeys HP) as [IH1 IH2].
    { intros kc' kl' ? ? ?. apply HQ; [done| by right |done]. }
    cbn [zip_with]. split.
    + constructor; [|done]. apply HQ; [done|left|done].
    + rewrite fmap_cons. cbn [fst]. by rewrite IH2.
Qed.

Section table.
Context (keys : list str).
Hypothesis keys_NoDup : NoDup keys.

Local Abbreviation add_row :=
  (foldl (λ results (kl : str * str), results_append results kl.1 kl.2)).

(** The table after the rows of labels of the traces: no key for no
    trace, else the keys in order, each with the labels of its key, one
    per trace. *)
Lemma label_table (rows : list (list (str * str))) :
  Forall (λ row, row.*1 = keys) rows →
  (foldl add_row [] rows).*1 = (if decide (rows = []) then [] else keys)
  ∧ Forall (λ kc, Forall2 (λ row label, (kc.1, label) ∈ row) rows kc.2)
           (foldl add_row [] rows).
Proof.
  induction rows as [|row rows IH] using rev_ind; intros Hrows.
  - split; [done|constructor].
  - apply Forall_app in Hrows as [Hrows [Hrow _]%Forall_cons].
    destruct (IH Hrows) as [IHkeys IHlabels]. rewrite foldl_snoc.
    rewrite (decide_False (P := rows ++ [row] = [])) by by destruct rows.
    destruct (decide (rows = [])) as [->|Hne].
    + cbn [foldl]. rewrite (add_row_first row []), app_nil_l.
      2:{ by rewrite Hrow. }
      split.
      * rewrite <- list_fmap_compose. by rewrite <- Hrow.
      * apply Forall_fmap, Forall_forall. intros [k l] Hkl. cbn.
        by repeat constructor.
    + pose proof (add_row_next row [] (foldl add_row [] rows)) as Hnext.
      rewrite !app_nil_l in Hnext. rewrite Hnext by (by rewrite Hrow).
      destruct (zip_extend
                  (λ kc, Forall2 (λ row label, (kc.1, label) ∈ row) rows kc.2)
                  (λ kc, Forall2 (λ row0 label, (kc.1, label) ∈ row0)
                                 (rows ++ [row]) kc.2)
                  (foldl add_row [] rows) row) as [Hall Hkeys].
      * by rewrite IHkeys, Hrow.
      * done.
      * intros kc [k l] HP Hin Hk. cbn [fst snd] in *.
        apply Forall2_app; [done|]. repeat constructor. by rewrite Hk.
      * split; [by rewrite Hkeys|done].
Qed.
End table.

(** *** The loops of the script *)

Lemma list_getitem_app_r {A} (l1 l2 : list A) x :
  list_getitem (l1 ++ x :: l2) (length l1) = Ok x.
Proof. unfold list_getitem. by rewrite list_lookup_middle. Qed.

Lemma find_labels_loop labels_of log2 :
  ∀ idxs2 rows2 log1 idxs1 acc,
    length idxs1 = length log1 →
    Forall2 (λ trace rev, create_trace_reverse_index trace concept_name = Ok rev)
            log2 idxs2 →
    Forall2 (λ trace row,
               ∃ rev, create_trace_reverse_index trace concept_name = Ok rev
                      ∧ labels_of rev trace = Ok row) log2 rows2 →
    for_each (λ labelling_results log_ind,
                rev_trace ← list_getitem (idxs1 ++ idxs2) log_ind;
                trace ← list_getitem (log1 ++ log2) log_ind;
                labels ← labels_of rev_trace trace;
                Ok (foldl (λ results kl, results_append results kl.1 kl.2)
                          labelling_results labels))
             (seq (length log1) (length log2)) acc
    = Ok (foldl (foldl (λ results (kl : str * str),
                          results_append results kl.1 kl.2)) acc rows2).
Proof.
  induction log2 as [|trace log2 IH];
    intros idxs2 rows2 log1 idxs1 acc Hlen Hidxs Hrows.
  - apply Forall2_nil_inv_l in Hrows as ->. done.
  - apply Forall2_cons_inv_l in Hidxs as (rev & idxs2' & Hrev & Hidxs & ->).
    apply Forall2_cons_inv_l in Hrows
      as (row & rows2' & (rev' & Hrev' & Hrow) & Hrows & ->).
    assert (rev' = rev) as -> by congruence.
    cbn [length seq for_each].
    pose proof (list_getitem_app_r idxs1 idxs2' rev) as Hget.
    rewrite Hlen in Hget. rewrite Hget, bind_Ok.
    rewrite list_getitem_app_r, bind_Ok, Hrow, !bind_Ok.
    rewrite (cons_middle trace log1 log2), (cons_middle rev idxs1 idxs2'),
      !app_assoc.
    replace (S (length log1)) with (length (log1 ++ [trace]))
      by (rewrite length_app; simpl; lia).
    rewrite (IH idxs2' rows2'); [done| |done..].
    rewrite !length_app. simpl. lia.
Qed.

Lemma log_reverse_index_inv log name idxs :
  create_log_reverse_index log name = Ok idxs →
  Forall2 (λ trace rev, create_trace_reverse_index trace name = Ok rev)
          log idxs.
Proof.
  unfold create_log_reverse_index.
  assert (∀ acc idxs,
            for_each (λ reverse_indexes trace,
                        rev_index ← create_trace_reverse_index trace name;
                        Ok (reverse_indexes ++ [rev_index])) log acc
            = Ok idxs →
            ∃ idxs', idxs = acc ++ idxs'
                     ∧ Forall2 (λ trace rev,
                                  create_trace_reverse_index trace name = Ok rev)
                               log idxs') as Hloop.
  { clear idxs. induction log as [|trace log IH]; intros acc idxs H.
    - injection H as <-. exists []. by rewrite app_nil_r.
    - cbn [for_each] in H. apply bind_Ok_inv in H as (acc' & Hacc & H).
      apply bind_Ok_inv in Hacc as (rev & Hrev & [= <-]).
      destruct (IH _ _ H) as (idxs' & -> & Hall).
      exists (rev :: idxs'). split; [by rewrite <- app_assoc|].
      by constructor. }
  intros H. destruct (Hloop [] idxs H) as (idxs' & -> & Hall). done.
Qed.

Lemma set_label_set_label trace l1 l2 :
  set_label (set_label trace l1) l2 = set_label trace l2.
Proof. unfold set_label. cbn [attributes events]. by rewrite insert_insert_eq. Qed.

Lemma set_labels_loop labels rest :
  ∀ pre,
    (length pre + length rest ≤ length labels)%nat →
    for_each (λ log log_ind,
                label ← list_getitem labels log_ind;
                trace ← list_getitem log log_ind;
                Ok (<[ log_ind := set_label trace label ]> log))
             (seq (length pre) (length rest)) (pre ++ rest)
    = Ok (pre ++ zip_with set_label rest (drop (length pre) labels)).
Proof.
  induction rest as [|trace rest IH]; intros pre Hlen; [done|].
  cbn [length seq for_each].
  destruct (labels !! length pre) as [l|] eqn:Hl.
  2:{ apply lookup_ge_None in Hl. simpl in Hlen. lia. }
  assert (list_getitem labels (length pre) = Ok l) as Hget
    by (unfold list_getitem; by rewrite Hl).
  rewrite Hget, bind_Ok.
  rewrite list_getitem_app_r, bind_Ok, bind_Ok.
  rewrite insert_app_r_alt by done. rewrite Nat.sub_diag. cbn [insert list_insert].
  rewrite (cons_middle _ pre rest), app_assoc.
  replace (S (length pre)) with (length (pre ++ [set_label trace l]))
    by (rewrite length_app; simpl; lia).
  rewrite IH by (rewrite length_app; simpl in *; lia).
  rewrite <- app_assoc. f_equal. cbn [app]. rewrite length_app. cbn [length].
  rewrite (drop_S labels l (length pre)) by done. cbn [zip_with].
  by rewrite Nat.add_1_r.
Qed.

Lemma set_labels_zip log labels :
  (length log ≤ length labels)%nat →
  set_labels log labels = Ok (zip_with set_label log labels).
Proof.
  intros Hlen. unfold set_labels.
  exact (set_labels_loop labels log [] Hlen).
Qed.

Lemma zip_with_relabelled log log' labels :
  Forall2 relabelled log log' →
  zip_with set_label log' labels = zip_with set_label log labels.
Proof.
  intros H. revert labels. induction H as [|t t' log log' Ht _ IH];
    intros [|l labels]; try done.
  cbn [zip_with]. by rewrite Ht, IH.
Qed.

Lemma relabelled_zip_with log labels :
  (length log ≤ length labels)%nat →
  Forall2 relabelled log (zip_with set_label log labels).
Proof.
  revert labels. induction log as [|t log IH]; intros [|l labels] Hlen;
    try (simpl in Hlen; lia); [constructor..|].
  cbn [zip_with]. constructor.
  - intros l'. apply set_label_set_label.
  - apply IH. simpl in Hlen. lia.
Qed.

Lemma save_loop log results :
  ∀ log_cur saved,
    Forall2 relabelled log log_cur →
    Forall (λ kc : str * list str, (length log ≤ length kc.2)%nat) results →
    ∃ log_end,
      for_each (λ (st : list Trace * list (str * list Trace)) kl,
                  log ← set_labels st.1 kl.2;
                  Ok (log, st.2 ++ [(kl.1, log)]))
               results (log_cur, saved)
      = Ok (log_end,
            saved ++ ((λ kc, (kc.1, zip_with set_label log kc.2)) <$> results)).
Proof.
  induction results as [|[k col] results IH]; intros log_cur saved Hrel Hlen.
  - exists log_cur. by rewrite app_nil_r.
  - apply Forall_cons in Hlen as [Hcol Hlen]. cbn [fst snd] in Hcol.
    cbn [for_each fst snd]. rewrite set_labels_zip.
    2:{ by rewrite <- (Forall2_length _ _ _ Hrel). }
    rewrite (zip_with_relabelled log log_cur) by done. rewrite !bind_Ok.
    destruct (IH (zip_with set_label log col)
                 (saved ++ [(k, zip_with set_label log col)]))
      as [log_end Hend]; [by apply relabelled_zip_with|done|].
    exists log_end. rewrite Hend. by rewrite <- app_assoc.
Qed.

(** The logs saved for a log on which the labels of every trace are
    computed with the keys [keys]: one log per key, in order, none for the
    empty log; each is the log with the label of the key on every trace. *)
Lemma labelled_logs_saved labels_of keys log rows :
  NoDup keys →
  Forall2 (λ trace row,
             ∃ rev, create_trace_reverse_index trace concept_name = Ok rev
                    ∧ labels_of rev trace = Ok row ∧ row.*1 = keys)
          log rows →
  ∃ saved,
    create_labelled_logs labels_of log = Ok saved
    ∧ saved.*1 = (if decide (log = []) then [] else keys)
    ∧ ∀ key slog, (key, slog) ∈ saved →
        length slog = length log
        ∧ ∀ i trace row, log !! i = Some trace → rows !! i = Some row →
            ∃ label, (key, label) ∈ row
                     ∧ slog !! i = Some (set_label trace label).
Proof.
  intros Hkeys Hrows.
  assert (∃ idxs, Forall2 (λ trace rev,
                             create_trace_reverse_index trace concept_name
                             = Ok rev) log idxs) as [idxs Hidxs].
  { clear -Hrows. induction Hrows as [|t row log rows (rev & Hrev & _) _ [idxs IH]].
    - by exists [].
    - exists (rev :: idxs). by constructor. }
  unfold create_labelled_logs, create_log_reverse_index.
  rewrite (log_reverse_index_loop _ _ _ idxs Hidxs), app_nil_l, bind_Ok.
  unfold find_labels.
  pose proof (find_labels_loop labels_of log idxs rows [] [] [] eq_refl Hidxs)
    as Hfind.
  cbn [app length] in Hfind. rewrite Hfind, bind_Ok.
  2:{ eapply Forall2_impl; [exact Hrows|].
      intros t row (rev & ? & ? & ?). eauto. }
  clear Hfind.
  destruct (label_table keys Hkeys rows) as [Htkeys Htable].
  { eapply Forall2_Forall_r; [exact Hrows|]. apply Forall_forall.
    intros t _ row (rev & ? & ? & ?). done. }
  set (table := foldl (foldl (λ results (kl : str * str),
                                results_append results kl.1 kl.2)) [] rows)
    in *.
  pose proof (Forall2_length _ _ _ Hrows) as Hlen.
  unfold save_labelled_logs.
  destruct (save_loop log table log []) as [log_end Hsave].
  { apply Forall2_same_length_lookup_2; [done|].
    intros i t t' Ht Ht'. assert (t = t') as -> by congruence. by intros l. }
  { eapply Forall_impl; [exact Htable|]. intros [k col] Hcol.
    cbn [fst snd] in *. rewrite <- (Forall2_length _ _ _ Hcol). lia. }
  rewrite Hsave, bind_Ok. cbn [snd app].
  eexists. split; [done|]. split.
  - rewrite <- list_fmap_compose.
    change (fst ∘ _) with (fst : str * list str → str).
    rewrite Htkeys. destruct rows, log; try done.
  - intros key slog Hin.
    apply list_elem_of_fmap in Hin as ([k col] & [= -> ->] & Hin).
    rewrite Forall_forall in Htable. specialize (Htable _ Hin).
    cbn [fst snd] in *.
    pose proof (Forall2_length _ _ _ Htable) as Hcol. split.
    + rewrite length_zip_with. lia.
    + intros i trace row Hi Hrow.
      destruct (Forall2_lookup_l _ _ _ _ _ Htable Hrow) as (label & Hl & Hkl).
      exists label. split; [done|].
      rewrite lookup_zip_with, Hi. cbn. by rewrite Hl.
Qed.

(** *** The labels of a trace *)

Lemma named_names trace : named trace → ∃ names, event_names concept_name trace = Ok names.
Proof. apply names_of_Ok. Qed.

Lemma response_total_index names a b :
  ∃ v, check_response_constraint (index_names names 0 ∅) a b = Ok v.
Proof.
  unfold check_response_constraint, rev_getitem.
  rewrite !index_names_lookup, !lookup_empty. cbn [default app].
  destruct (decide (a ∈ names)) as [Ha|Ha];
    [rewrite decide_False by done|rewrite decide_True by done; eauto].
  destruct (decide (b ∈ names)) as [Hb|Hb];
    [rewrite decide_False by done|rewrite decide_True by done; eauto].
  cbn [default]. unfold id.
  destruct (is_last_exists _ _ Ha) as [la Hla].
  destruct (is_last_exists _ _ Hb) as [lb Hlb].
  rewrite (positions_last _ _ _ Hla), bind_Ok.
  rewrite (positions_last _ _ _ Hlb), bind_Ok. case_decide; eauto.
Qed.

Lemma precedence_total_index names a b :
  ∃ v, check_precedence_constraint (index_names names 0 ∅) a b = Ok v.
Proof.
  unfold check_precedence_constraint, rev_getitem.
  rewrite !index_names_lookup, !lookup_empty. cbn [default app].
  destruct (decide (b ∈ names)) as [Hb|Hb];
    [rewrite decide_False by done|rewrite decide_True by done; eauto].
  destruct (decide (a ∈ names)) as [Ha|Ha];
    [rewrite decide_False by done|rewrite decide_True by done; eauto].
  cbn [default]. unfold id.
  destruct (is_first_exists _ _ Ha) as [fa Hfa].
  destruct (is_first_exists _ _ Hb) as [fb Hfb].
  rewrite (positions_first _ _ _ Hfa), bind_Ok.
  rewrite (positions_first _ _ _ Hfb), bind_Ok. case_decide; eauto.
Qed.

Lemma init_total_index names a :
  ∃ v, check_init_constraint (index_names names 0 ∅) a = Ok v.
Proof.
  unfold check_init_constraint, rev_getitem.
  rewrite !index_names_lookup, !lookup_empty. cbn [default app].
  destruct (decide (a ∈ names)) as [Ha|Ha];
    [rewrite decide_False by done|rewrite decide_True by done; eauto].
  cbn [default]. unfold id.
  destruct (is_first_exists _ _ Ha) as [fa Hfa].
  rewrite (positions_first _ _ _ Hfa), bind_Ok. case_decide; eauto.
Qed.

Lemma interleaved_total trace names sequence count :
  event_names concept_name trace = Ok names → sequence ≠ [] →
  (∃ v, check_sequence_strict_order_interleaved trace sequence count = Ok v)
  ∧ (∃ v, check_sequence_nonstrict_order_interleaved trace sequence count
          = Ok v).
Proof.
  intros Hnames Hseq.
  unfold check_sequence_strict_order_interleaved,
    check_sequence_nonstrict_order_interleaved.
  rewrite (interleaved_loop_names strict_interleaved_step
             strict_interleaved_body _ _ names)
    by (done || apply strict_body_step).
  rewrite (interleaved_loop_names nonstrict_interleaved_step
             nonstrict_interleaved_body _ _ names)
    by (done || apply nonstrict_body_step).
  destruct (interleaved_run_simulation sequence
              (filter (λ n, n ∈ sequence) names) 0 sequence 0 sequence)
    as (cs' & copys' & cn' & copyn' & -> & -> & _); [done..|by right|].
  rewrite !bind_Ok. split; case_decide; eauto.
Qed.

Lemma label_if_01 b : label_if b = pystr "0" ∨ label_if b = pystr "1".
Proof. destruct b; auto. Qed.

Ltac labels_total Hnames :=
  repeat match goal with
    | |- context [check_response_constraint (index_names ?ns 0 ∅) ?a ?b] =>
        let v := fresh "v" in let H := fresh "H" in
        destruct (response_total_index ns a b) as [v H]; rewrite H, bind_Ok;
        clear H
    | |- context [check_precedence_constraint (index_names ?ns 0 ∅) ?a ?b] =>
        let v := fresh "v" in let H := fresh "H" in
        destruct (precedence_total_index ns a b) as [v H]; rewrite H, bind_Ok;
        clear H
    | |- context [check_init_constraint (index_names ?ns 0 ∅) ?a] =>
        let v := fresh "v" in let H := fresh "H" in
        destruct (init_total_index ns a) as [v H]; rewrite H, bind_Ok; clear H
    | |- context [check_sequence_strict_order_interleaved ?t ?s ?c] =>
        let v := fresh "v" in let H := fresh "H" in
        destruct (interleaved_total t _ s c Hnames ltac:(discriminate))
          as [[v H] _]; rewrite H, bind_Ok; clear H
    | |- context [check_sequence_nonstrict_order_interleaved ?t ?s ?c] =>
        let v := fresh "v" in let H := fresh "H" in
        destruct (interleaved_total t _ s c Hnames ltac:(discriminate))
          as [_ [v H]]; rewrite H, bind_Ok; clear H
    end;
  eexists; split; [reflexivity|];
  split; [reflexivity|];
  repeat (apply Forall_cons; split; [apply label_if_01|]); by apply Forall_nil.

Lemma sepsis_labels_total trace names :
  event_names concept_name trace = Ok names →
  ∃ row, sepsis_labels (index_names names 0 ∅) trace = Ok row
         ∧ labels_for sepsis_keys row.
Proof. intros Hnames. unfold sepsis_labels. labels_total Hnames. Qed.

Lemma traffic_labels_total trace names :
  event_names concept_name trace = Ok names →
  ∃ row, traffic_labels (index_names names 0 ∅) trace = Ok row
         ∧ labels_for traffic_keys row.
Proof. intros Hnames. unfold traffic_labels. labels_total Hnames. Qed.

Lemma bpi2011_labels_total trace names :
  event_names concept_name trace = Ok names →
  ∃ row, bpi2011_labels (index_names names 0 ∅) trace = Ok row
         ∧ labels_for bpi2011_keys row.
Proof. intros Hnames. unfold bpi2011_labels. labels_total Hnames. Qed.

Lemma bpi2012_labels_total trace names :
  event_names concept_name trace = Ok names →
  ∃ row, bpi2012_labels (index_names names 0 ∅) trace = Ok row
         ∧ labels_for bpi2012_keys row.
Proof. intros Hnames. unfold bpi2012_labels. labels_total Hnames. Qed.

Lemma bpi2015_labels_total monitoring_resource trace names :
  event_names concept_name trace = Ok names →
  ∃ row, bpi2015_labels monitoring_resource (index_names names 0 ∅) trace
         = Ok row
         ∧ labels_for bpi2015_keys row.
Proof. intros Hnames. unfold bpi2015_labels. labels_total Hnames. Qed.

(** [X16] On the reverse index of a trace whose events carry a name,
    none of the five computations of the labels of a trace raises: each
    returns one label, ["0"] or ["1"], for each of its keys, in order. *)
Theorem labels_of_named_trace (trace : Trace) (monitoring_resource : str) :
  named trace →
  ∃ rev_trace,
    create_trace_reverse_index trace concept_name = Ok rev_trace
    ∧ (∃ row, sepsis_labels rev_trace trace = Ok row
              ∧ labels_for sepsis_keys row)
    ∧ (∃ row, traffic_labels rev_trace trace = Ok row
              ∧ labels_for traffic_keys row)
    ∧ (∃ row, bpi2011_labels rev_trace trace = Ok row
              ∧ labels_for bpi2011_keys row)
    ∧ (∃ row, bpi2012_labels rev_trace trace = Ok row
              ∧ labels_for bpi2012_keys row)
    ∧ (∃ row, bpi2015_labels monitoring_resource rev_trace trace = Ok row
              ∧ labels_for bpi2015_keys row).
Proof.
  intros [names Hnames]%named_names.
  destruct (reverse_index_spec _ _ _ Hnames) as [Hrev _].
  eexists. split; [exact Hrev|].
  split; [by apply sepsis_labels_total|].
  split; [by apply traffic_labels_total|].
  split; [by apply bpi2011_labels_total|].
  split; [by apply bpi2012_labels_total|].
  by apply bpi2015_labels_total.
Qed.

Lemma labels_of_named_trace_witness :
  ∃ rev_trace,
    create_trace_reverse_index (trace_of [act_A; act_B]) concept_name
    = Ok rev_trace
    ∧ (∃ row, sepsis_labels rev_trace (trace_of [act_A; act_B]) = Ok row
              ∧ labels_for sepsis_keys row)
    ∧ (∃ row, traffic_labels rev_trace (trace_of [act_A; act_B]) = Ok row
              ∧ labels_for traffic_keys row)
    ∧ (∃ row, bpi2011_labels rev_trace (trace_of [act_A; act_B]) = Ok row
              ∧ labels_for bpi2011_keys row)
    ∧ (∃ row, bpi2012_labels rev_trace (trace_of [act_A; act_B]) = Ok row
              ∧ labels_for bpi2012_keys row)
    ∧ (∃ row, bpi2015_labels act_X rev_trace (trace_of [act_A; act_B])
              = Ok row
              ∧ labels_for bpi2015_keys row).
Proof.
  apply (labels_of_named_trace (trace_of [act_A; act_B]) act_X).
  apply (bool_decide_unpack _). vm_compute. exact I.
Defined.

(** *** The saved logs *)

Lemma labelled_rows labels_of keys log :
  (∀ trace names, event_names concept_name trace = Ok names →
     ∃ row, labels_of (index_names names 0 ∅) trace = Ok row
            ∧ labels_for keys row) →
  Forall named log →
  ∃ rows,
    Forall2 (λ trace row,
               ∃ rev, create_trace_reverse_index trace concept_name = Ok rev
                      ∧ labels_of rev trace = Ok row ∧ row.*1 = keys)
            log rows.
Proof.
  intros Htotal Hlog.
  induction Hlog as [|trace log [names Hnames]%named_names _ [rows IH]].
  - by exists [].
  - destruct (Htotal trace names Hnames) as (row & Hrow & Hkeys & _).
    destruct (reverse_index_spec _ _ _ Hnames) as [Hrev _].
    exists (row :: rows). constructor; [|done]. eauto.
Qed.

(** [X17] On a log whose events all carry a name,
    [create_sepsis_labelled_logs] does not raise. For the empty log it
    saves nothing; otherwise it saves one log for each of the keys
    [declare], [mr_tr], [mra_tra] and [payload], in this order, and the
    log saved for a key is the log read, of the same length, in which the
    attribute [Label] of every trace is the label of that trace for the
    key; events and other attributes are as read. *)
Theorem sepsis_labelled_logs (log : list Trace) :
  Forall named log →
  ∃ saved,
    create_sepsis_labelled_logs log = Ok saved
    ∧ saved.*1 = (if decide (log = []) then [] else sepsis_keys)
    ∧ ∀ key slog, (key, slog) ∈ saved →
        length slog = length log
        ∧ ∀ i trace, log !! i = Some trace →
            ∃ rev row label,
              create_trace_reverse_index trace concept_name = Ok rev
              ∧ sepsis_labels rev trace = Ok row
              ∧ (key, label) ∈ row
              ∧ slog !! i = Some (set_label trace label).
Proof.
  intros Hlog.
  destruct (labelled_rows sepsis_labels sepsis_keys log) as [rows Hrows];
    [apply sepsis_labels_total|done|].
  destruct (labelled_logs_saved sepsis_labels sepsis_keys log rows)
    as (saved & Hsaved & Hkeys & Hlabels); [|done|].
  { apply (bool_decide_unpack _). vm_compute. exact I. }
  exists saved. split; [done|]. split; [done|].
  intros key slog Hin. destruct (Hlabels key slog Hin) as [Hlen Hi].
  split; [done|]. intros i trace Htrace.
  destruct (Forall2_lookup_l _ _ _ _ _ Hrows Htrace)
    as (row & Hrow & rev & Hrev & Hlab & _).
  destruct (Hi i trace row Htrace Hrow) as (label & Hl & Hs).
  exists rev, row, label. done.
Qed.

Lemma sepsis_labelled_logs_witness :
  ∃ saved,
    create_sepsis_labelled_logs [trace_of [act_A; act_B]; trace_of []]
    = Ok saved
    ∧ saved.*1
      = (if decide ([trace_of [act_A; act_B]; trace_of []] = []) then []
         else sepsis_keys)
    ∧ ∀ key slog, (key, slog) ∈ saved →
        length slog = length [trace_of [act_A; act_B]; trace_of []]
        ∧ ∀ i trace,
            [trace_of [act_A; act_B]; trace_of []] !! i = Some trace →
            ∃ rev row label,
              create_trace_reverse_index trace concept_name = Ok rev
              ∧ sepsis_labels rev trace = Ok row
              ∧ (key, label) ∈ row
              ∧ slog !! i = Some (set_label trace label).
Proof.
  apply (sepsis_labelled_logs [trace_of [act_A; act_B]; trace_of []]).
  apply (bool_decide_unpack _). vm_compute. exact I.
Defined.

Lemma rev_index_loop_error name evs st e :
  for_each (rev_index_body name) evs st = Raise e → e = KeyError.
Proof.
  revert st. induction evs as [|ev evs IH]; intros st; [done|].
  cbn [for_each]. destruct (rev_index_body name st ev) as [st'|e'] eqn:Hst.
  - rewrite bind_Ok. apply IH.
  - unfold rev_index_body, getitem in Hst.
    destruct (ev !! name); [done|]. injection Hst as <-. by intros [= <-].
Qed.

Lemma reverse_index_error trace name e :
  create_trace_reverse_index trace name = Raise e → e = KeyError.
Proof.
  unfold create_trace_reverse_index.
  destruct (for_each _ _ _) as [st|e'] eqn:Hloop; [done|].
  apply rev_index_loop_error in Hloop as ->. by intros [= <-].
Qed.

Lemma log_reverse_index_loop_KeyError log name acc :
  Exists (λ trace, Exists (λ e, e !! name = None) (events trace)) log →
  for_each (λ reverse_indexes trace,
              rev_index ← create_trace_reverse_index trace name;
              Ok (reverse_indexes ++ [rev_index]))
           log acc
  = Raise KeyError.
Proof.
  intros Hex. revert acc.
  induction Hex as [trace log Htrace|trace log _ IH]; intros acc.
  - cbn [for_each].
    assert (create_trace_reverse_index trace name = Raise KeyError) as ->;
      [|done].
    unfold create_trace_reverse_index. by rewrite rev_index_loop_KeyError.
  - cbn [for_each].
    destruct (create_trace_reverse_index trace name) as [rev|e] eqn:Hrev.
    + rewrite !bind_Ok. apply IH.
    + by apply reverse_index_error in Hrev as ->.
Qed.

Lemma log_reverse_index_KeyError log name :
  Exists (λ trace, Exists (λ e, e !! name = None) (events trace)) log →
  create_log_reverse_index log name = Raise KeyError.
Proof. apply log_reverse_index_loop_KeyError. Qed.

(** [X18] When some event of the log carries no name, the shared loops
    raise [KeyError] while the reverse indexes are built, whatever the
    labels are: no label is computed and no log is saved. *)
Theorem labelled_logs_key_error
    (labels_of : gmap str (list nat) → Trace → result (list (str * str)))
    (log : list Trace) :
  Exists (λ trace, Exists (λ e, e !! concept_name = None) (events trace)) log →
  create_labelled_logs labels_of log = Raise KeyError
  ∧ create_sepsis_labelled_logs log = Raise KeyError
  ∧ create_log_reverse_index log concept_name = Raise KeyError.
Proof.
  intros Hex%log_reverse_index_KeyError.
  unfold create_sepsis_labelled_logs, create_labelled_logs.
  by rewrite Hex.
Qed.

Lemma labelled_logs_key_error_witness :
  create_labelled_logs traffic_labels [trace_of [act_A]; mkTrace ∅ [∅]]
  = Raise KeyError
  ∧ create_sepsis_labelled_logs [trace_of [act_A]; mkTrace ∅ [∅]]
    = Raise KeyError
  ∧ create_log_reverse_index [trace_of [act_A]; mkTrace ∅ [∅]] concept_name
    = Raise KeyError.
Proof.
  apply (labelled_logs_key_error traffic_labels
           [trace_of [act_A]; mkTrace ∅ [∅]]).
  apply (bool_decide_unpack _). vm_compute. exact I.
Defined.

(** *** The renaming of events *)

Lemma replacements_not_replaced n r :
  event_replacement_dict !! n = Some r → event_replacement_dict !! r = None.
Proof.
  assert (map_Forall (λ _ r, event_replacement_dict !! r = None)
                     event_replacement_dict) as Hall.
  { apply (bool_decide_unpack _). vm_compute. exact I. }
  apply Hall.
Qed.

Lemma replaced_name_not_replaced n :
  event_replacement_dict !! replaced_name n = None.
Proof.
  unfold replaced_name.
  destruct (event_replacement_dict !! n) as [r|] eqn:Hn; [|done].
  by eapply replacements_not_replaced.
Qed.

Lemma replaced_name_idemp n : replaced_name (replaced_name n) = replaced_name n.
Proof. unfold replaced_name at 1. by rewrite replaced_name_not_replaced. Qed.

Lemma rename_event_named e n :
  e !! concept_name = Some n → rename_event e = Ok (renamed_event e).
Proof.
  intros He. unfold rename_event, renamed_event, getitem, replaced_name.
  rewrite He, bind_Ok.
  destruct (event_replacement_dict !! n); [done|].
  cbn [default]. by rewrite insert_id.
Qed.

Lemma renamed_event_name e n :
  e !! concept_name = Some n →
  renamed_event e !! concept_name = Some (replaced_name n).
Proof. intros He. unfold renamed_event. by rewrite He, lookup_insert_eq. Qed.

Lemma renamed_event_other e k :
  k ≠ concept_name → renamed_event e !! k = e !! k.
Proof.
  intros Hk. unfold renamed_event.
  destruct (e !! concept_name); [|done]. by rewrite lookup_insert_ne.
Qed.

Lemma renamed_event_idemp e : renamed_event (renamed_event e) = renamed_event e.
Proof.
  destruct (e !! concept_name) as [n|] eqn:He.
  - unfold renamed_event at 1. rewrite (renamed_event_name e n He).
    rewrite replaced_name_idemp. apply insert_id.
    by apply renamed_event_name.
  - unfold renamed_event. by rewrite He, He.
Qed.

Lemma map_result_fmap {A B} (f : A → result B) (g : A → B) (l : list A) :
  Forall (λ x, f x = Ok (g x)) l → map_result f l = Ok (g <$> l).
Proof.
  induction 1 as [|x l Hx _ IH]; [done|].
  cbn [map_result]. by rewrite Hx, bind_Ok, IH.
Qed.

Lemma rename_events_named log :
  Forall named log → rename_events log = Ok (renamed_trace <$> log).
Proof.
  intros Hlog. unfold rename_events. apply map_result_fmap.
  eapply Forall_impl; [exact Hlog|]. intros trace Htrace.
  rewrite (map_result_fmap rename_event renamed_event); [done|].
  eapply Forall_impl; [exact Htrace|]. intros e [n He].
  by eapply rename_event_named.
Qed.

Lemma renamed_trace_names trace names :
  event_names concept_name trace = Ok names →
  event_names concept_name (renamed_trace trace)
  = Ok (replaced_name <$> names).
Proof.
  unfold event_names, renamed_trace. cbn [events].
  revert names. induction (events trace) as [|e evs IH]; intros names Hnames.
  - by inversion Hnames.
  - apply names_of_cons_inv in Hnames as (n & ns & -> & He & Hns).
    rewrite fmap_cons. cbn [names_of]. unfold getitem.
    rewrite (renamed_event_name e n He), bind_Ok, (IH ns Hns). done.
Qed.

Lemma renamed_trace_named trace : named trace → named (renamed_trace trace).
Proof.
  unfold named, renamed_trace. cbn [events]. intros H.
  apply Forall_fmap. eapply Forall_impl; [exact H|].
  intros e [n He]. unfold compose.
  rewrite (renamed_event_name e n He). eauto.
Qed.

Lemma renamed_trace_idemp trace :
  renamed_trace (renamed_trace trace) = renamed_trace trace.
Proof.
  unfold renamed_trace. cbn [attributes events]. f_equal.
  rewrite <- list_fmap_compose. apply list_fmap_ext.
  intros i e _. apply renamed_event_idemp.
Qed.

(** [X19] On a log whose events all carry a name, the renaming loop of
    [create_bpi2011_labelled_logs] does not raise and keeps the traces,
    their attributes and their events in place: the name of an event
    becomes its replacement when the dictionary has one and stays as it is
    otherwise, every other attribute of the event is kept, no name of the
    renamed log has a replacement, and renaming the renamed log changes
    nothing. *)
Theorem rename_events_names (log : list Trace) :
  Forall named log →
  ∃ log',
    rename_events log = Ok log'
    ∧ Forall2 (λ t t',
                 attributes t' = attributes t
                 ∧ Forall2 (λ e e', ∀ k, k ≠ concept_name → e' !! k = e !! k)
                           (events t) (events t')
                 ∧ ∀ names, event_names concept_name t = Ok names →
                     event_names concept_name t'
                     = Ok (replaced_name <$> names)
                       ∧ Forall (λ n, event_replacement_dict !! n = None)
                                (replaced_name <$> names))
              log log'
    ∧ rename_events log' = Ok log'.
Proof.
  intros Hlog. exists (renamed_trace <$> log).
  split; [by apply rename_events_named|]. split.
  - apply Forall2_fmap_r, Forall2_same_length_lookup_2; [done|].
    intros i t t' Ht Ht'. assert (t' = t) as -> by congruence.
    split; [done|]. split.
    + unfold renamed_trace. cbn [events].
      apply Forall2_fmap_r, Forall2_same_length_lookup_2; [done|].
      intros j e e' He He'. assert (e' = e) as -> by congruence.
      intros k Hk. by apply renamed_event_other.
    + intros names Hnames. split; [by apply renamed_trace_names|].
      apply Forall_fmap, Forall_forall. intros n _.
      apply replaced_name_not_replaced.
  - rewrite rename_events_named.
    + f_equal. rewrite <- list_fmap_compose. apply list_fmap_ext.
      intros i t _. apply renamed_trace_idemp.
    + apply Forall_fmap. eapply Forall_impl; [exact Hlog|].
      intros t Ht. by apply renamed_trace_named.
Qed.

Lemma rename_events_names_witness :
  ∃ log',
    rename_events [trace_of [pystr "SGOT - Asat kinetic"; act_A]] = Ok log'
    ∧ Forall2 (λ t t',
                 attributes t' = attributes t
                 ∧ Forall2 (λ e e', ∀ k, k ≠ concept_name → e' !! k = e !! k)
                           (events t) (events t')
                 ∧ ∀ names, event_names concept_name t = Ok names →
                     event_names concept_name t'
                     = Ok (replaced_name <$> names)
                       ∧ Forall (λ n, event_replacement_dict !! n = None)
                                (replaced_name <$> names))
              [trace_of [pystr "SGOT - Asat kinetic"; act_A]] log'
    ∧ rename_events log' = Ok log'.
Proof.
  apply (rename_events_names [trace_of [pystr "SGOT - Asat kinetic"; act_A]]).
  apply (bool_decide_unpack _). vm_compute. exact I.
Defined.

(** [X20] On a log whose events all carry a name,
    [create_bpi2011_labelled_logs] does not raise. For the empty log it
    saves nothing; otherwise it saves one log for each of its five keys,
    in order, and the log saved for a key holds the traces of the log
    after the renaming, each with the attribute [Label] set to the label
    that is computed for the key from the renamed trace. *)
Theorem bpi2011_labelled_logs (log : list Trace) :
  Forall named log →
  ∃ saved,
    create_bpi2011_labelled_logs log = Ok saved
    ∧ saved.*1 = (if decide (log = []) then [] else bpi2011_keys)
    ∧ ∀ key slog, (key, slog) ∈ saved →
        length slog = length log
        ∧ ∀ i trace, log !! i = Some trace →
            ∃ rev row label,
              create_trace_reverse_index (renamed_trace trace) concept_name
              = Ok rev
              ∧ bpi2011_labels rev (renamed_trace trace) = Ok row
              ∧ (key, label) ∈ row
              ∧ slog !! i = Some (set_label (renamed_trace trace) label).
Proof.
  intros Hlog. unfold create_bpi2011_labelled_logs.
  rewrite rename_events_named, bind_Ok by done.
  assert (Forall named (renamed_trace <$> log)) as Hlog'.
  { apply Forall_fmap. eapply Forall_impl; [exact Hlog|].
    intros t Ht. by apply renamed_trace_named. }
  destruct (labelled_rows bpi2011_labels bpi2011_keys (renamed_trace <$> log))
    as [rows Hrows]; [apply bpi2011_labels_total|done|].
  destruct (labelled_logs_saved bpi2011_labels bpi2011_keys
              (renamed_trace <$> log) rows)
    as (saved & Hsaved & Hkeys & Hlabels); [|done|].
  { apply (bool_decide_unpack _). vm_compute. exact I. }
  exists saved. split; [done|]. split.
  - rewrite Hkeys. by destruct log.
  - intros key slog Hin. destruct (Hlabels key slog Hin) as [Hlen Hi].
    rewrite length_fmap in Hlen. split; [done|]. intros i trace Htrace.
    assert ((renamed_trace <$> log) !! i = Some (renamed_trace trace))
      as Htrace' by by rewrite list_lookup_fmap, Htrace.
    destruct (Forall2_lookup_l _ _ _ _ _ Hrows Htrace')
      as (row & Hrow & rev & Hrev & Hlab & _).
    destruct (Hi i _ row Htrace' Hrow) as (label & Hl & Hs).
    exists rev, row, label. done.
Qed.

Lemma bpi2011_labelled_logs_witness :
  ∃ saved,
    create_bpi2011_labelled_logs [trace_of [pystr "SGOT - Asat kinetic"]]
    = Ok saved
    ∧ saved.*1
      = (if decide ([trace_of [pystr "SGOT - Asat kinetic"]] = []) then []
         else bpi2011_keys)
    ∧ ∀ key slog, (key, slog) ∈ saved →
        length slog = length [trace_of [pystr "SGOT - Asat kinetic"]]
        ∧ ∀ i trace,
            [trace_of [pystr "SGOT - Asat kinetic"]] !! i = Some trace →
            ∃ rev row label,
              create_trace_reverse_index (renamed_trace trace) concept_name
              = Ok rev
              ∧ bpi2011_labels rev (renamed_trace trace) = Ok row
              ∧ (key, label) ∈ row
              ∧ slog !! i = Some (set_label (renamed_trace trace) label).
Proof.
  apply (bpi2011_labelled_logs [trace_of [pystr "SGOT - Asat kinetic"]]).
  apply (bool_decide_unpack _). vm_compute. exact I.
Defined.
